(** * sqlparser: the statement normalizer (normalizer.go)

    A shallow embedding of [Normalize], [sqlToBindvar], [newName] and
    [GetBindvars], and the properties of the normalization pass.

    Go values are embedded as follows.
    - [string] and [[]byte] are [string] (a list of bytes).
    - [int] is a [Z] kept in the 64-bit signed range; [counter + 1] and
      [counter++] wrap around ([wrap_int]).
    - [map[string]struct{}] is a [gset string], [map[string]string] and
      [map[string]*querypb.BindVariable] are [gmap]s.
    - in-place mutation of the statement and of the maps is explicit state
      passing: every function returns the objects it may have changed.
    - a run-time panic (a slice expression out of range) is the outcome
      [Panic]; [Timeout] is the outcome of a bounded unfolding of a loop or
      of a recursion that ran out of steps. *)

From Stdlib Require Import ZArith Lia Ascii String.
From stdpp Require Import base numbers option list strings pretty gmap sets fin_sets fin_maps.

Set Warnings "-register-all,-clear-no-such-hyp".

(** ** Outcomes *)

Inductive outcome (A : Type) : Type :=
| Done (a : A)
| Panic (msg : string)
| Timeout.
Arguments Done {A} a.
Arguments Panic {A} msg.
Arguments Timeout {A}.

#[global] Instance outcome_ret : MRet outcome := λ A a, Done a.
#[global] Instance outcome_bind : MBind outcome := λ A B f m,
  match m with
  | Done a => f a
  | Panic msg => Panic msg
  | Timeout => Timeout
  end.

(** ** Machine integers and formatting *)

Definition int_min : Z := (- 2 ^ 63)%Z.
Definition int_max : Z := (2 ^ 63 - 1)%Z.
Definition is_int (z : Z) : Prop := (int_min ≤ z ≤ int_max)%Z.

(** Two's complement wrap-around of Go's [int] arithmetic. *)
Definition wrap_int (z : Z) : Z := ((z + 2 ^ 63) `mod` 2 ^ 64 - 2 ^ 63)%Z.

(** [fmt.Sprintf("%s%d", prefix, counter)]; [pretty] on [Z] prints the
    decimal digits without leading zeros, with a leading minus sign for a
    negative number. *)
Definition Sprintf_s_d (prefix : string) (counter : Z) : string :=
  prefix +:+ pretty counter.

(** ** newName *)

(** The [for] loop of [newName], unfolded at most [fuel] times. The map
    [reserved] is updated in place by the source, so it is returned. *)
Fixpoint newName_loop (fuel : nat) (prefix : string) (counter : Z)
    (reserved : gset string) : outcome (string * Z * gset string) :=
  match fuel with
  | O => Timeout
  | S fuel' =>
      let newName := Sprintf_s_d prefix counter in
      if decide (newName ∈ reserved)
      then newName_loop fuel' prefix (wrap_int (counter + 1)) reserved
      else Done (newName, wrap_int (counter + 1), {[ newName ]} ∪ reserved)
  end.

(** The counter of the [i]-th turn of the loop. *)
Fixpoint probe (counter : Z) (i : nat) : Z :=
  match i with
  | O => counter
  | S i' => probe (wrap_int (counter + 1)) i'
  end.

(** One more probe than there are reserved names is always enough (see
    [newName_loop_enough]). *)
Definition newName (prefix : string) (counter : Z) (reserved : gset string)
    : outcome (string * Z * gset string) :=
  newName_loop (S (size reserved)) prefix counter reserved.

(** ** The syntax tree *)

(** Modelled from the spec: the kinds of [SQLVal] (ast.go is not part of the
    sources). The normalizer names [StrVal], [IntVal], [FloatVal] and
    [ValArg]; every other kind is [OtherVal]. *)
Inductive ValType : Type :=
| StrVal
| IntVal
| FloatVal
| ValArg
| OtherVal (tag : nat).

#[global] Instance ValType_eq_dec : EqDecision ValType.
Proof. solve_decision. Defined.

(** Modelled from the spec: the node variants of ast.go that the normalizer
    distinguishes: literals and scalar placeholders ([*SQLVal]), list
    placeholders ([ListArg]), tuples ([ValTuple]), comparisons
    ([*ComparisonExpr], operator and two operands), and every other variant
    ([OtherNode], an opaque tag and the ordered children). *)
Inductive SQLNode : Type :=
| SQLVal (Type_ : ValType) (Val : string)
| ListArg (Val : string)
| ValTuple (elems : list SQLNode)
| ComparisonExpr (Operator : string) (Left Right : SQLNode)
| OtherNode (kind : string) (subtrees : list SQLNode).

Definition Statement : Type := SQLNode.

(** Modelled from the spec: the operator strings of IN and NOT IN. *)
Definition InStr : string := "in".
Definition NotInStr : string := "not in".

(** The children a traversal descends into, in order. *)
Definition children (node : SQLNode) : list SQLNode :=
  match node with
  | SQLVal _ _ => []
  | ListArg _ => []
  | ValTuple elems => elems
  | ComparisonExpr _ l r => [l; r]
  | OtherNode _ subtrees => subtrees
  end.

(** The node with its children replaced (the children are mutable slots of
    the node). *)
Definition with_children (node : SQLNode) (cs : list SQLNode) : SQLNode :=
  match node with
  | SQLVal _ _ => node
  | ListArg _ => node
  | ValTuple _ => ValTuple cs
  | ComparisonExpr op l r =>
      match cs with
      | [l'; r'] => ComparisonExpr op l' r'
      | _ => node
      end
  | OtherNode kind _ => OtherNode kind cs
  end.

(** All nodes of a tree, in pre-order. *)
Fixpoint subnodes (node : SQLNode) : list SQLNode :=
  node ::
  match node with
  | SQLVal _ _ => []
  | ListArg _ => []
  | ValTuple elems =>
      (fix go (l : list SQLNode) : list SQLNode :=
         match l with [] => [] | e :: l' => subnodes e ++ go l' end) elems
  | ComparisonExpr _ l r => subnodes l ++ subnodes r
  | OtherNode _ subtrees =>
      (fix go (l : list SQLNode) : list SQLNode :=
         match l with [] => [] | e :: l' => subnodes e ++ go l' end) subtrees
  end.

(** Height of a tree; a leaf has height 0. *)
Fixpoint depth (node : SQLNode) : nat :=
  match node with
  | SQLVal _ _ => 0
  | ListArg _ => 0
  | ValTuple elems =>
      S ((fix go (l : list SQLNode) : nat :=
            match l with [] => 0 | e :: l' => depth e `max` go l' end) elems)
  | ComparisonExpr _ l r => S (depth l `max` depth r)
  | OtherNode _ subtrees =>
      S ((fix go (l : list SQLNode) : nat :=
            match l with [] => 0 | e :: l' => depth e `max` go l' end) subtrees)
  end.

(** The node at a position: a path of child indices from the root. *)
Fixpoint node_at (path : list nat) (node : SQLNode) : option SQLNode :=
  match path with
  | [] => Some node
  | i :: path' =>
      match children node !! i with
      | Some c => node_at path' c
      | None => None
      end
  end.

(** ** Walk *)

Definition error : Type := string.

(** What a visitor hands back: the state of the variables it closes over,
    the visited node after its in-place updates, and its two results
    [kontinue] and [err]. *)
Definition Visit (S : Type) : Type :=
  S → SQLNode → outcome (S * SQLNode * (bool * option error)).

(** Modelled from the spec: the traversal facility [Walk] of ast.go, a
    depth-first pre-order visit of every node of [nodes]: the visitor is
    called on a node, then (when it asks to continue) on the children the
    node has after the call; an error of the visitor stops the walk and is
    returned. [fuel] bounds the nesting of the recursion; a tree of height
    [h] needs [S h]. *)
Fixpoint Walk {S : Type} (fuel : nat) (visit : Visit S) (st : S)
    (nodes : list SQLNode) : outcome (S * list SQLNode * option error) :=
  match nodes, fuel with
  | [], _ => Done (st, [], None)
  | _ :: _, O => Timeout
  | _ :: _, S fuel' =>
      (fix each (st : S) (nodes : list SQLNode)
         : outcome (S * list SQLNode * option error) :=
         match nodes with
         | [] => Done (st, [], None)
         | node :: rest =>
             '(st1, node1, (kontinue, err)) ← visit st node;
             match err with
             | Some e => Done (st1, node1 :: rest, Some e)
             | None =>
                 '(st2, node2, err) ←
                   (if kontinue : bool
                    then '(st2, cs, err) ← Walk fuel' visit st1 (children node1);
                         Done (st2, with_children node1 cs, err)
                    else Done (st1, node1, None));
                 match err with
                 | Some e => Done (st2, node2 :: rest, Some e)
                 | None =>
                     '(st3, rest', err) ← each st2 rest;
                     Done (st3, node2 :: rest', err)
                 end
             end
         end) st nodes
  end.

(** ** Typed values (sqltypes, querypb) *)

(** The wire-format type tags the normalizer uses. *)
Inductive querypb_Type : Type :=
| VarBinary
| Int64
| Float64
| Type_TUPLE.

#[global] Instance querypb_Type_eq_dec : EqDecision querypb_Type.
Proof. solve_decision. Defined.

(** [querypb.Value]: a type tag and the raw bytes of the value. *)
Record Value : Type := mkValue {
  Value_Type : querypb_Type;
  Value_Value : string
}.

(** [querypb.BindVariable]: a scalar (tag and raw bytes) or, with the tag
    [Type_TUPLE], a list of values. *)
Record BindVariable : Type := mkBindVariable {
  Type_ : querypb_Type;
  Value_ : string;
  Values : list Value
}.

#[global] Instance Value_eq_dec : EqDecision Value.
Proof. solve_decision. Defined.
#[global] Instance BindVariable_eq_dec : EqDecision BindVariable.
Proof. solve_decision. Defined.

Definition digit_of (c : ascii) : option Z :=
  let n := Z.of_nat (nat_of_ascii c) in
  if decide (48 ≤ n ≤ 57)%Z then Some (n - 48)%Z else None.

Fixpoint parse_digits (acc : Z) (s : string) : option Z :=
  match s with
  | EmptyString => Some acc
  | String c s' =>
      match digit_of c with
      | Some d => parse_digits (10 * acc + d)%Z s'
      | None => None
      end
  end.

Fixpoint skip_digits (s : string) : nat * string :=
  match s with
  | EmptyString => (0, s)
  | String c s' =>
      match digit_of c with
      | Some _ => let '(n, r) := skip_digits s' in (S n, r)
      | None => (0, s)
      end
  end.

Definition skip_sign (s : string) : string :=
  match s with
  | String "+" s' => s'
  | String "-" s' => s'
  | _ => s
  end.

(** Modelled from the spec: the parse of an integer literal, "64-bit signed
    integer parsed from raw decimal text": an optional sign, at least one
    decimal digit, and a value in the 64-bit signed range. *)
Definition ParseInt (s : string) : option Z :=
  let body := skip_sign s in
  match body with
  | EmptyString => None
  | _ =>
      match parse_digits 0 body with
      | None => None
      | Some m =>
          let z := match s with String "-" _ => (- m)%Z | _ => m end in
          if decide (int_min ≤ z ≤ int_max)%Z then Some z else None
      end
  end.

(** Modelled from the spec: whether the parse of a float literal succeeds,
    "64-bit IEEE value parsed from raw text": an optional sign, decimal
    digits with an optional fraction (at least one digit in all), and an
    optional decimal exponent. The IEEE value itself is not represented (a
    typed value keeps the raw bytes), and the magnitude is not checked. *)
Definition ParseFloat_ok (s : string) : bool :=
  let '(n1, r1) := skip_digits (skip_sign s) in
  let '(n2, r2) :=
    match r1 with
    | String "." r => skip_digits r
    | _ => (0, r1)
    end in
  if decide (n1 + n2 = 0) then false
  else match r2 with
       | EmptyString => true
       | String c r =>
           if decide (c = "e"%char ∨ c = "E"%char)
           then let '(n3, r3) := skip_digits (skip_sign r) in
                bool_decide (n3 ≠ 0 ∧ r3 = EmptyString)
           else false
       end.

(** Modelled from the spec: [sqltypes.NewValue], which builds a value of
    the given type from raw bytes and fails when the bytes do not parse as
    that type. The failure value of [(v, err)] is [None]. *)
Definition NewValue (typ : querypb_Type) (val : string) : option Value :=
  match typ with
  | VarBinary => Some (mkValue typ val)
  | Int64 => if ParseInt val is Some _ then Some (mkValue typ val) else None
  | Float64 => if ParseFloat_ok val then Some (mkValue typ val) else None
  | Type_TUPLE => None
  end.

(** Modelled from the spec: [sqltypes.ValueBindVariable], the scalar bind
    variable holding a value. *)
Definition ValueBindVariable (v : Value) : BindVariable :=
  mkBindVariable (Value_Type v) (Value_Value v) [].

(** ** sqlToBindvar *)

(** [nil] is [None]. *)
Definition sqlToBindvar (node : SQLNode) : option BindVariable :=
  match node with
  | SQLVal typ val =>
      match typ with
      | StrVal => ValueBindVariable <$> NewValue VarBinary val
      | IntVal => ValueBindVariable <$> NewValue Int64 val
      | FloatVal => ValueBindVariable <$> NewValue Float64 val
      | _ => None
      end
  | _ => None
  end.

(** ** GetBindvars *)

Fixpoint drop_bytes (n : nat) (s : string) : string :=
  match n, s with
  | O, _ => s
  | S n', String _ s' => drop_bytes n' s'
  | S _, EmptyString => EmptyString
  end.

Definition slice_panic : string := "slice bounds out of range".

(** The slice expression [s[n:]], which panics when [n] exceeds the
    length. *)
Definition slice_from (n : nat) (s : string) : outcome string :=
  if decide (n ≤ String.length s) then Done (drop_bytes n s)
  else Panic slice_panic.

(** The visitor of [GetBindvars]; its state is the map [bindvars]. *)
Definition GetBindvars_visit : Visit (gset string) :=
  λ bindvars node,
    match node with
    | SQLVal typ val =>
        if decide (typ = ValArg)
        then name ← slice_from 1 val;
             Done ({[ name ]} ∪ bindvars, node, (true, None))
        else Done (bindvars, node, (true, None))
    | ListArg val =>
        name ← slice_from 2 val;
        Done ({[ name ]} ∪ bindvars, node, (true, None))
    | _ => Done (bindvars, node, (true, None))
    end.

(** The walk of [GetBindvars] with everything it produces: the map, the
    statement after the walk, and the error that the source discards. *)
Definition GetBindvars_walk (stmt : Statement)
    : outcome (gset string * list SQLNode * option error) :=
  Walk (S (depth stmt)) GetBindvars_visit ∅ [stmt].

Definition GetBindvars (stmt : Statement) : outcome (gset string) :=
  '(bindvars, _, _) ← GetBindvars_walk stmt;
  Done bindvars.

(** ** Normalize *)

(** The variables the visitor of [Normalize] closes over: [reserved],
    [counter], [vals] and the caller's [bindVars]. The last field is a
    history variable: the assignments [bindVars[bvname] = ...] made so far,
    latest first. *)
Record NormState : Type := mkNormState {
  st_reserved : gset string;
  st_counter : Z;
  st_vals : gmap string string;
  st_bindVars : gmap string BindVariable;
  st_written : list (string * BindVariable)
}.

(** The loop over the elements of a tuple: [None] when an element has no
    bind value, otherwise the accumulated [bvals.Values]. *)
Fixpoint tuple_values (tupleVals : list SQLNode) (acc : list Value)
    : option (list Value) :=
  match tupleVals with
  | [] => Some acc
  | val :: rest =>
      match sqlToBindvar val with
      | None => None
      | Some bval =>
          tuple_values rest (acc ++ [mkValue (Type_ bval) (Value_ bval)])
      end
  end.

(** The key of a literal in [vals]: the raw text, after a quote for a
    value of type [VarBinary]. *)
Definition dedup_key (bval : BindVariable) (val : string) : string :=
  if decide (Type_ bval = VarBinary) then "'" +:+ val else val.

Definition Normalize_visit (prefix : string) : Visit NormState :=
  λ st node,
    match node with
    | SQLVal typ val =>
        match sqlToBindvar node with
        | None => Done (st, node, (true, None))
        | Some bval =>
            let key := dedup_key bval val in
            match st_vals st !! key with
            | Some bvname =>
                Done (st, SQLVal ValArg (":" +:+ bvname), (true, None))
            | None =>
                '(bvname, counter', reserved') ←
                  newName prefix (st_counter st) (st_reserved st);
                Done (mkNormState reserved' counter'
                        (<[ key := bvname ]> (st_vals st))
                        (<[ bvname := bval ]> (st_bindVars st))
                        ((bvname, bval) :: st_written st),
                      SQLVal ValArg (":" +:+ bvname), (true, None))
            end
        end
    | ComparisonExpr op l r =>
        if decide (op = InStr ∨ op = NotInStr)
        then match r with
             | ValTuple tupleVals =>
                 match tuple_values tupleVals [] with
                 | None => Done (st, node, (true, None))
                 | Some values =>
                     let bvals := mkBindVariable Type_TUPLE "" values in
                     '(bvname, counter', reserved') ←
                       newName prefix (st_counter st) (st_reserved st);
                     Done (mkNormState reserved' counter' (st_vals st)
                             (<[ bvname := bvals ]> (st_bindVars st))
                             ((bvname, bvals) :: st_written st),
                           ComparisonExpr op l (ListArg ("::" +:+ bvname)),
                           (true, None))
                 end
             | _ => Done (st, node, (true, None))
             end
        else Done (st, node, (true, None))
    | _ => Done (st, node, (true, None))
    end.

(** [Normalize] with everything it produces: the final values of the
    closed-over variables, the statement after the walk, and the error of
    [Walk] that the source discards. *)
Definition Normalize_walk (stmt : Statement)
    (bindVars : gmap string BindVariable) (prefix : string)
    : outcome (NormState * list SQLNode * option error) :=
  reserved ← GetBindvars stmt;
  Walk (S (depth stmt)) (Normalize_visit prefix)
    (mkNormState reserved 1 ∅ bindVars []) [stmt].

(** What the caller of [Normalize] observes: the statement and the bind
    variables after the call. *)
Definition Normalize (stmt : Statement)
    (bindVars : gmap string BindVariable) (prefix : string)
    : outcome (Statement * gmap string BindVariable) :=
  '(st, nodes, _) ← Normalize_walk stmt bindVars prefix;
  Done (default stmt (head nodes), st_bindVars st).

(** ** Well-formed statements *)

(** The name a placeholder node refers to: its text after the sigil (one
    byte for a scalar placeholder, two for a list placeholder). *)
Definition bindvar_name (node : SQLNode) : option string :=
  match node with
  | SQLVal ValArg (String _ name) => Some name
  | ListArg (String _ (String _ name)) => Some name
  | _ => None
  end.

(** A placeholder node whose text is too short to hold its sigil. *)
Definition truncated (node : SQLNode) : bool :=
  match node with
  | SQLVal ValArg val => bool_decide (String.length val < 1)
  | ListArg val => bool_decide (String.length val < 2)
  | _ => false
  end.

(** A placeholder node is encoded as the spec has it: [:name] for a scalar
    reference and [::name] for a list reference. *)
Definition has_sigil (node : SQLNode) : bool :=
  match node with
  | SQLVal ValArg (String ":" _) => true
  | SQLVal ValArg _ => false
  | ListArg (String ":" (String ":" _)) => true
  | ListArg _ => false
  | _ => true
  end.

Definition well_formed (stmt : Statement) : bool :=
  forallb has_sigil (subnodes stmt).

(** The statement is small enough for its nodes to be counted by an
    [int]. *)
Definition fits_int (stmt : Statement) : Prop :=
  (4 * Z.of_nat (length (subnodes stmt)) < int_max)%Z.

(** The names the placeholder nodes of a sequence of nodes refer to. *)
Definition bindvars_of (l : list SQLNode) : gset string :=
  list_to_set (omap bindvar_name l).

(** The visitor of [GetBindvars] applied to a sequence of nodes. *)
Fixpoint scan (bindvars : gset string) (l : list SQLNode)
    : outcome (gset string) :=
  match l with
  | [] => Done bindvars
  | node :: l' =>
      '(bindvars', _, _) ← GetBindvars_visit bindvars node;
      scan bindvars' l'
  end.

(** ** What the walk of [Normalize] does to a statement *)

(** The values of the list bind variable a comparison is rewritten to:
    defined for IN and NOT IN with a tuple on the right all of whose
    elements have a bind value. *)
Definition list_values (node : SQLNode) : option (list Value) :=
  match node with
  | ComparisonExpr op _ (ValTuple tupleVals) =>
      if decide (op = InStr ∨ op = NotInStr)
      then tuple_values tupleVals []
      else None
  | _ => None
  end.

(** The positions the walk of [Normalize] visits: all but those at or
    below a tuple that is replaced by a list placeholder. *)
Fixpoint reached (path : list nat) (node : SQLNode) : bool :=
  match path with
  | [] => true
  | i :: path' =>
      match children node !! i with
      | None => false
      | Some c =>
          if list_values node is Some _
          then bool_decide (i = 0) && reached path' c
          else reached path' c
      end
  end.

(** The statement after the walk, given the final [vals] and the
    assignments to [bindVars]. *)
Inductive rewritten (V : gmap string string)
    (W : list (string * BindVariable)) : SQLNode → SQLNode → Prop :=
| rw_literal (typ : ValType) (val : string) (bval : BindVariable)
    (name : string) :
    sqlToBindvar (SQLVal typ val) = Some bval →
    V !! dedup_key bval val = Some name →
    rewritten V W (SQLVal typ val) (SQLVal ValArg (":" +:+ name))
| rw_tuple (op : string) (l l' : SQLNode) (elems : list SQLNode)
    (values : list Value) (name : string) :
    list_values (ComparisonExpr op l (ValTuple elems)) = Some values →
    (name, mkBindVariable Type_TUPLE "" values) ∈ W →
    rewritten V W l l' →
    rewritten V W (ComparisonExpr op l (ValTuple elems))
      (ComparisonExpr op l' (ListArg ("::" +:+ name)))
| rw_descend (node : SQLNode) (cs : list SQLNode) :
    sqlToBindvar node = None →
    list_values node = None →
    Forall2 (rewritten V W) (children node) cs →
    rewritten V W node (with_children node cs).

(** What holds of the variables of [Normalize] between two visits, for the
    prefix [prefix], the names [R0] found in the statement and the bind
    variables [bv0] of the caller. *)
Record inv (prefix : string) (R0 : gset string)
    (bv0 : gmap string BindVariable) (st : NormState) : Prop := mkInv {
  inv_reserved : st_reserved st = list_to_set (st_written st).*1 ∪ R0;
  inv_fresh : ∀ name, name ∈ (st_written st).*1 → name ∉ R0;
  inv_nodup : NoDup (st_written st).*1;
  inv_bindVars : st_bindVars st = list_to_map (st_written st) ∪ bv0;
  inv_vals : ∀ key name, st_vals st !! key = Some name →
    ∃ typ val bval, sqlToBindvar (SQLVal typ val) = Some bval ∧
                    key = dedup_key bval val ∧
                    (name, bval) ∈ st_written st;
  inv_vals_inj : ∀ k1 k2 name,
    st_vals st !! k1 = Some name → st_vals st !! k2 = Some name → k1 = k2;
  inv_counter : (1 ≤ st_counter st ≤ int_max)%Z;
  inv_probed : ∀ i, (1 ≤ i < st_counter st)%Z →
    Sprintf_s_d prefix i ∈ st_reserved st;
  inv_names : ∀ name, name ∈ (st_written st).*1 →
    ∃ n, (1 ≤ n < st_counter st)%Z ∧ name = Sprintf_s_d prefix n;
  inv_first : ∀ w, last (st_written st) = Some w →
    ∃ n, (1 ≤ n)%Z ∧ w.1 = Sprintf_s_d prefix n ∧
         ∀ m, (1 ≤ m < n)%Z → Sprintf_s_d prefix m ∈ R0
}.

(** The variables only grow. *)
Definition ext (st st' : NormState) : Prop :=
  st_vals st ⊆ st_vals st' ∧
  (∃ new, st_written st' = new ++ st_written st).

(** The three things one visit of [Normalize] can do to a node. *)
Definition visited (st st1 : NormState) (node node1 : SQLNode) : Prop :=
  (∃ typ val bval name,
     node = SQLVal typ val ∧ sqlToBindvar node = Some bval ∧
     st_vals st1 !! dedup_key bval val = Some name ∧
     node1 = SQLVal ValArg (":" +:+ name))
  ∨ (∃ op l elems values name,
       node = ComparisonExpr op l (ValTuple elems) ∧
       list_values node = Some values ∧
       (name, mkBindVariable Type_TUPLE "" values) ∈ st_written st1 ∧
       node1 = ComparisonExpr op l (ListArg ("::" +:+ name)))
  ∨ (sqlToBindvar node = None ∧ list_values node = None ∧
     node1 = node ∧ st1 = st).

(** ** Statements with nothing to normalize *)

(** A node that the visitor of [Normalize] leaves alone: it has no bind
    value and it is not a comparison to rewrite. *)
Definition settled (node : SQLNode) : bool :=
  match sqlToBindvar node, list_values node with
  | None, None => true
  | _, _ => false
  end.

(** A statement all of whose nodes are left alone. *)
Definition normalized (stmt : Statement) : bool :=
  forallb settled (subnodes stmt).

(** ** Placeholders introduced by the walk *)

(** The name of a list placeholder node. *)
Definition listarg_name (node : SQLNode) : option string :=
  match node with
  | ListArg (String _ (String _ name)) => Some name
  | _ => None
  end.

(** The names of the list placeholders among nodes, with repetitions. *)
Definition listarg_names (l : list SQLNode) : list string :=
  omap listarg_name l.

(** The keys of the list bind variables among assignments. *)
Definition tuple_names (w : list (string * BindVariable)) : list string :=
  (filter (λ e, Type_ e.2 = Type_TUPLE) w).*1.

(** ** Statements used as examples *)

Definition stmt_v1_v2 : Statement :=
  OtherNode "select"
    [OtherNode "where"
       [OtherNode "and"
          [ComparisonExpr "=" (OtherNode "a" []) (SQLVal ValArg ":v1");
           ComparisonExpr "in" (OtherNode "b" []) (ListArg "::v2")]]].

Definition stmt_truncated : Statement :=
  OtherNode "and"
    [ComparisonExpr "=" (OtherNode "a" []) (SQLVal IntVal "1");
     ComparisonExpr "=" (OtherNode "b" []) (SQLVal ValArg "")].

Definition stmt_round_trip : Statement :=
  OtherNode "select"
    [OtherNode "where"
       [OtherNode "and"
          [ComparisonExpr "=" (OtherNode "a" []) (SQLVal IntVal "5");
           ComparisonExpr "=" (OtherNode "b" []) (SQLVal StrVal "x")]]].

Definition stmt_with_v1 : Statement :=
  OtherNode "select"
    [OtherNode "where"
       [OtherNode "and"
          [ComparisonExpr "=" (OtherNode "a" []) (SQLVal ValArg ":v1");
           ComparisonExpr "=" (OtherNode "b" []) (SQLVal IntVal "5");
           ComparisonExpr "in" (OtherNode "c" []) (ListArg "::v3");
           ComparisonExpr "=" (OtherNode "d" []) (SQLVal StrVal "x")]]].

Definition stmt_a_eq_5 : Statement :=
  OtherNode "select"
    [OtherNode "where"
       [ComparisonExpr "=" (OtherNode "a" []) (SQLVal IntVal "5")]].

Definition stmt_in_partial : Statement :=
  OtherNode "select"
    [OtherNode "where"
       [ComparisonExpr "in" (OtherNode "x" [])
          (ValTuple [SQLVal IntVal "1"; SQLVal IntVal "2";
                     SQLVal (OtherVal 0) "0x1F"])]].


Definition stmt_str_int : Statement :=
  OtherNode "select"
    [OtherNode "where"
       [OtherNode "and"
          [ComparisonExpr "=" (OtherNode "a" []) (SQLVal StrVal "123");
           ComparisonExpr "=" (OtherNode "b" []) (SQLVal IntVal "123")]]].

Definition stmt_eq_and_in : Statement :=
  OtherNode "select"
    [OtherNode "where"
       [OtherNode "and"
          [ComparisonExpr "=" (OtherNode "a" []) (SQLVal IntVal "1");
           ComparisonExpr "in" (OtherNode "b" [])
             (ValTuple [SQLVal IntVal "1"; SQLVal IntVal "2"])]]].

Definition stmt_twice : Statement :=
  OtherNode "select"
    [OtherNode "where"
       [OtherNode "and"
          [ComparisonExpr "=" (OtherNode "a" []) (SQLVal IntVal "5");
           ComparisonExpr "=" (OtherNode "b" []) (SQLVal IntVal "5")]]].

Definition stmt_not_in : Statement :=
  OtherNode "select"
    [OtherNode "where"
       [ComparisonExpr "not in" (OtherNode "a" [])
          (ValTuple [SQLVal IntVal "1"; SQLVal StrVal "b";
                     SQLVal FloatVal "2.5"])]].

Definition stmt_unconverted : Statement :=
  OtherNode "select"
    [OtherNode "where"
       [OtherNode "and"
          [ComparisonExpr "=" (OtherNode "a" [])
             (SQLVal IntVal "99999999999999999999");
           ComparisonExpr "=" (OtherNode "b" []) (SQLVal StrVal "x")]]].

Definition stmt_eq_tuple : Statement :=
  OtherNode "select"
    [OtherNode "where"
       [ComparisonExpr "=" (ValTuple [OtherNode "a" []; OtherNode "b" []])
          (ValTuple [SQLVal IntVal "1"; SQLVal IntVal "2"])]].

Definition stmt_two_lists : Statement :=
  OtherNode "select"
    [OtherNode "where"
       [OtherNode "and"
          [ComparisonExpr "in" (OtherNode "a" [])
             (ValTuple [SQLVal IntVal "1"; SQLVal IntVal "2"]);
           ComparisonExpr "in" (OtherNode "b" [])
             (ValTuple [SQLVal IntVal "1"; SQLVal IntVal "2"]);
           ComparisonExpr "in" (OtherNode "c" []) (ListArg "::v1")]]].

(** * Properties *)

(** ** Machine integers *)

Ltac wrap_lia :=
  unfold is_int, wrap_int, int_min, int_max in *;
  Z.div_mod_to_equations; lia.

Lemma wrap_int_id (z : Z) : is_int z → wrap_int z = z.
Proof. intros ?. wrap_lia. Qed.

Lemma wrap_int_is_int (z : Z) : is_int (wrap_int z).
Proof. wrap_lia. Qed.

Lemma wrap_int_wrap_add (z d : Z) : wrap_int (wrap_int z + d) = wrap_int (z + d).
Proof. wrap_lia. Qed.

Lemma wrap_int_add_inj (c i j : Z) :
  (0 ≤ i < 2 ^ 64)%Z → (0 ≤ j < 2 ^ 64)%Z →
  wrap_int (c + i) = wrap_int (c + j) → i = j.
Proof. intros ? ? ?. wrap_lia. Qed.

(** ** newName *)

Lemma Sprintf_s_d_inj (prefix : string) (a b : Z) :
  Sprintf_s_d prefix a = Sprintf_s_d prefix b → a = b.
Proof.
  unfold Sprintf_s_d. intros H.
  apply (inj (String.app prefix)) in H. by apply (inj pretty) in H.
Qed.

Lemma probe_wrap (c : Z) (i : nat) :
  is_int c → probe c i = wrap_int (c + Z.of_nat i).
Proof.
  revert c. induction i as [|i IH]; intros c Hc; simpl.
  - by rewrite Z.add_0_r, wrap_int_id.
  - rewrite IH by apply wrap_int_is_int.
    rewrite wrap_int_wrap_add. f_equal. lia.
Qed.

Lemma probe_inj (c : Z) (i j : nat) :
  is_int c → (Z.of_nat i < 2 ^ 64)%Z → (Z.of_nat j < 2 ^ 64)%Z →
  probe c i = probe c j → i = j.
Proof.
  intros Hc Hi Hj. rewrite !probe_wrap by done. intros H.
  apply wrap_int_add_inj in H; lia.
Qed.

(** The loop either stops at the first probe that misses, or all its
    probes hit. *)
Lemma newName_loop_cases (fuel : nat) (prefix : string) (c : Z)
    (R : gset string) :
  (∃ i, i < fuel ∧
        (∀ j, j < i → Sprintf_s_d prefix (probe c j) ∈ R) ∧
        (Sprintf_s_d prefix (probe c i) ∉ R) ∧
        newName_loop fuel prefix c R =
          Done (Sprintf_s_d prefix (probe c i), wrap_int (probe c i + 1),
                {[ Sprintf_s_d prefix (probe c i) ]} ∪ R))
  ∨ ((∀ j, j < fuel → Sprintf_s_d prefix (probe c j) ∈ R) ∧
     newName_loop fuel prefix c R = Timeout).
Proof.
  revert c. induction fuel as [|fuel IH]; intros c.
  - right. split; [intros j Hj; lia | done].
  - simpl. destruct (decide (Sprintf_s_d prefix c ∈ R)) as [Hin|Hout].
    + destruct (IH (wrap_int (c + 1))) as [(i & Hi & Hhit & Hmiss & Hrun)|[Hhit Hrun]].
      * left. exists (S i). split; [lia|]. split; [|by split].
        intros [|j] Hj; [done|]. apply Hhit. lia.
      * right. split; [|done]. intros [|j] Hj; [done|]. apply Hhit. lia.
    + left. exists 0. split; [lia|]. split; [intros j Hj; lia|]. by split.
Qed.

(** Pairwise distinct names that are all reserved are no more than the
    reserved names. *)
Lemma probes_bounded (prefix : string) (c : Z) (R : gset string) (n : nat) :
  is_int c → (Z.of_nat n ≤ 2 ^ 64)%Z →
  (∀ j, j < n → Sprintf_s_d prefix (probe c j) ∈ R) → n ≤ size R.
Proof.
  intros Hc Hn Hhit.
  set (l := (λ j, Sprintf_s_d prefix (probe c j)) <$> seq 0 n).
  assert (NoDup l) as Hnd.
  { apply NoDup_fmap_2_strong; [|apply NoDup_seq].
    intros i j Hi Hj Heq. apply elem_of_seq in Hi, Hj.
    apply Sprintf_s_d_inj in Heq. apply (probe_inj c); [done|lia|lia|done]. }
  assert (list_to_set l ⊆ R) as Hsub.
  { intros x Hx. apply elem_of_list_to_set in Hx.
    apply list_elem_of_fmap in Hx as (j & -> & Hj).
    apply elem_of_seq in Hj. apply Hhit. lia. }
  apply subseteq_size in Hsub.
  rewrite size_list_to_set in Hsub by done.
  unfold l in Hsub. by rewrite length_fmap, length_seq in Hsub.
Qed.

(** [newName] returns, and more fuel does not change what it returns. *)
Lemma newName_loop_enough (prefix : string) (c : Z) (R : gset string) :
  is_int c → (Z.of_nat (size R) ≤ int_max)%Z →
  ∃ i, i ≤ size R ∧
       (∀ j, j < i → Sprintf_s_d prefix (probe c j) ∈ R) ∧
       (Sprintf_s_d prefix (probe c i) ∉ R) ∧
       ∀ fuel, i < fuel →
         newName_loop fuel prefix c R =
           Done (Sprintf_s_d prefix (probe c i), wrap_int (probe c i + 1),
                 {[ Sprintf_s_d prefix (probe c i) ]} ∪ R).
Proof.
  intros Hc Hsz.
  destruct (newName_loop_cases (S (size R)) prefix c R)
    as [(i & Hi & Hhit & Hmiss & _)|[Hhit _]].
  - exists i. split; [lia|]. split; [done|]. split; [done|].
    intros fuel Hfuel.
    destruct (newName_loop_cases fuel prefix c R)
      as [(i' & Hi' & Hhit' & Hmiss' & Hrun)|[Hhit' _]].
    + assert (i' = i) as ->; [|done].
      destruct (Nat.lt_trichotomy i' i) as [?|[?|?]]; [|done|].
      * by destruct Hmiss'; apply Hhit.
      * by destruct Hmiss; apply Hhit'.
    + by destruct Hmiss; apply Hhit'.
  - apply probes_bounded in Hhit; [lia|done|].
    unfold int_max in Hsz. lia.
Qed.

(** ** Trees and walks *)

Lemma subnodes_unfold (node : SQLNode) :
  subnodes node = node :: flat_map subnodes (children node).
Proof.
  destruct node as [typ val|val|elems|op l r|kind subtrees]; simpl; f_equal.
  by rewrite app_nil_r.
Qed.

Lemma depth_children (node c : SQLNode) :
  c ∈ children node → depth c < depth node.
Proof.
  assert (∀ l : list SQLNode, c ∈ l →
    depth c ≤ (fix go (l : list SQLNode) : nat :=
                 match l with [] => 0 | e :: l' => depth e `max` go l' end) l)
    as Hgo.
  { induction l as [|e l IH]; intros Hc.
    - by apply not_elem_of_nil in Hc.
    - apply elem_of_cons in Hc as [->|Hc]; [lia|]. specialize (IH Hc). lia. }
  destruct node as [typ val|val|elems|op l r|kind subtrees]; simpl; intros Hc.
  - by apply not_elem_of_nil in Hc.
  - by apply not_elem_of_nil in Hc.
  - specialize (Hgo _ Hc). lia.
  - apply elem_of_cons in Hc as [->|Hc]; [lia|].
    apply list_elem_of_singleton in Hc as ->. lia.
  - specialize (Hgo _ Hc). lia.
Qed.

Lemma with_children_id (node : SQLNode) :
  with_children node (children node) = node.
Proof. by destruct node. Qed.

Lemma Walk_nil {S : Type} (fuel : nat) (visit : Visit S) (st : S) :
  Walk fuel visit st [] = Done (st, [], None).
Proof. by destruct fuel. Qed.

Lemma Walk_cons {S : Type} (fuel : nat) (visit : Visit S) (st : S)
    (node : SQLNode) (rest : list SQLNode) :
  Walk (Datatypes.S fuel) visit st (node :: rest) =
    '(st1, node1, (kontinue, err)) ← visit st node;
    match err with
    | Some e => Done (st1, node1 :: rest, Some e)
    | None =>
        '(st2, node2, err) ←
          (if kontinue : bool
           then '(st2, cs, err) ← Walk fuel visit st1 (children node1);
                Done (st2, with_children node1 cs, err)
           else Done (st1, node1, None));
        match err with
        | Some e => Done (st2, node2 :: rest, Some e)
        | None =>
            '(st3, rest', err) ← Walk (Datatypes.S fuel) visit st2 rest;
            Done (st3, node2 :: rest', err)
        end
    end.
Proof. by destruct rest. Qed.

#[global] Arguments Walk : simpl never.

(** ** GetBindvars *)

Lemma scan_app (b : gset string) (l1 l2 : list SQLNode) :
  scan b (l1 ++ l2) = b1 ← scan b l1; scan b1 l2.
Proof.
  revert b. induction l1 as [|n l1 IH]; intros b; simpl; [done|].
  destruct (GetBindvars_visit b n) as [[[b' n'] r]|msg|]; simpl; [|done..].
  apply IH.
Qed.

Lemma GetBindvars_visit_Done (b b' : gset string) (n n' : SQLNode)
    (r : bool * option error) :
  GetBindvars_visit b n = Done (b', n', r) → n' = n ∧ r = (true, None).
Proof.
  unfold GetBindvars_visit. intros H.
  destruct n as [typ val|val| | |]; simplify_eq/=; try done.
  - case_decide; [|by simplify_eq].
    destruct (slice_from 1 val); by simplify_eq/=.
  - destruct (slice_from 2 val); by simplify_eq/=.
Qed.

(** The walk of [GetBindvars] applies the visitor to the nodes in
    pre-order and hands back the nodes as they were. *)
Lemma Walk_GetBindvars (fuel : nat) (nodes : list SQLNode) (b : gset string) :
  Forall (λ n, depth n < fuel) nodes →
  Walk fuel GetBindvars_visit b nodes =
    b' ← scan b (flat_map subnodes nodes); Done (b', nodes, None).
Proof.
  revert nodes b. induction fuel as [|fuel IH]; intros nodes b Hd.
  { destruct nodes as [|n nodes]; [done|].
    apply Forall_cons in Hd as [? _]. lia. }
  induction nodes as [|n nodes IHn] in b, Hd |- *; [done|].
  apply Forall_cons in Hd as [Hn Hd].
  rewrite Walk_cons. simpl flat_map. rewrite subnodes_unfold. simpl scan.
  destruct (GetBindvars_visit b n) as [[[b1 n1] r]|msg|] eqn:Hv; simpl; [|done..].
  apply GetBindvars_visit_Done in Hv as [-> ->]. simpl.
  rewrite IH; last first.
  { apply Forall_forall. intros c Hc. apply depth_children in Hc. lia. }
  rewrite scan_app.
  destruct (scan b1 (flat_map subnodes (children n))) as [b2|msg|]; simpl; [|done..].
  rewrite with_children_id, IHn by done.
  by destruct (scan b2 (flat_map subnodes nodes)).
Qed.

Lemma GetBindvars_visit_spec (b : gset string) (n : SQLNode) :
  GetBindvars_visit b n =
    if truncated n then Panic slice_panic
    else Done (bindvars_of [n] ∪ b, n, (true, None)).
Proof.
  unfold bindvars_of.
  destruct n as [typ val|val|elems|op l r|kind subtrees]; simpl;
    try (do 3 f_equal; set_solver).
  - destruct typ; simpl; try (do 3 f_equal; set_solver).
    destruct val as [|c val]; simpl; [done|].
    do 3 f_equal. set_solver.
  - destruct val as [|c [|c' val]]; simpl; try done.
    do 3 f_equal. set_solver.
Qed.

Lemma scan_spec (b : gset string) (l : list SQLNode) :
  scan b l =
    if existsb truncated l then Panic slice_panic
    else Done (bindvars_of l ∪ b).
Proof.
  revert b. induction l as [|n l IH]; intros b; simpl.
  - f_equal. unfold bindvars_of. set_solver.
  - rewrite GetBindvars_visit_spec.
    destruct (truncated n); simpl; [done|].
    rewrite IH. destruct (existsb truncated l); [done|].
    f_equal. unfold bindvars_of. simpl.
    destruct (bindvar_name n); set_solver.
Qed.

Lemma GetBindvars_walk_spec (stmt : Statement) :
  GetBindvars_walk stmt =
    if existsb truncated (subnodes stmt) then Panic slice_panic
    else Done (bindvars_of (subnodes stmt), [stmt], None).
Proof.
  unfold GetBindvars_walk. rewrite Walk_GetBindvars.
  - simpl flat_map. rewrite app_nil_r, scan_spec.
    destruct (existsb truncated (subnodes stmt)); simpl; [done|].
    do 3 f_equal. set_solver.
  - apply Forall_singleton. lia.
Qed.

Lemma GetBindvars_spec (stmt : Statement) :
  GetBindvars stmt =
    if existsb truncated (subnodes stmt) then Panic slice_panic
    else Done (bindvars_of (subnodes stmt)).
Proof.
  unfold GetBindvars. rewrite GetBindvars_walk_spec.
  by destruct (existsb truncated (subnodes stmt)).
Qed.

Lemma has_sigil_not_truncated (n : SQLNode) :
  has_sigil n = true → truncated n = false.
Proof.
  destruct n as [typ val|val|elems|op l r|kind subtrees]; simpl; try done.
  - destruct typ; try done. by destruct val.
  - destruct val as [|c [|c' val]]; simpl; intros H; [done| |done].
    by repeat case_match.
Qed.

Lemma well_formed_not_truncated (stmt : Statement) :
  well_formed stmt = true → existsb truncated (subnodes stmt) = false.
Proof.
  unfold well_formed. intros Hwf.
  apply not_true_is_false. intros Hex.
  apply existsb_exists in Hex as (n & Hn & Ht).
  rewrite forallb_forall in Hwf. specialize (Hwf n Hn).
  apply has_sigil_not_truncated in Hwf. congruence.
Qed.

Lemma elem_of_bindvars_of (name : string) (l : list SQLNode) :
  name ∈ bindvars_of l ↔ ∃ n, n ∈ l ∧ bindvar_name n = Some name.
Proof.
  unfold bindvars_of. rewrite elem_of_list_to_set, list_elem_of_omap.
  done.
Qed.

Lemma size_list_to_set_le (l : list string) :
  size (list_to_set l : gset string) ≤ length l.
Proof.
  induction l as [|x l IH].
  - rewrite list_to_set_nil, size_empty. done.
  - rewrite list_to_set_cons, size_union_alt, size_singleton. simpl.
    assert (size ((list_to_set l : gset string) ∖ {[x]})
            ≤ size (list_to_set l : gset string)).
    { apply subseteq_size. set_solver. }
    lia.
Qed.

Lemma size_bindvars_of (l : list SQLNode) : size (bindvars_of l) ≤ length l.
Proof.
  unfold bindvars_of. etrans; [apply size_list_to_set_le|].
  induction l as [|n l IH]; simpl; [done|].
  change (list_omap SQLNode string bindvar_name l) with (omap bindvar_name l).
  destruct (bindvar_name n); simpl; lia.
Qed.

(** ** The visitor of Normalize *)

Lemma counter_bounded (prefix : string) (c : Z) (R : gset string) :
  (1 ≤ c ≤ int_max)%Z →
  (∀ i, (1 ≤ i < c)%Z → Sprintf_s_d prefix i ∈ R) →
  (c - 1 ≤ Z.of_nat (size R))%Z.
Proof.
  intros Hc Hhit.
  assert (is_int 1) as H1 by (unfold is_int, int_min, int_max; lia).
  pose proof (probes_bounded prefix 1 R (Z.to_nat (c - 1)) H1) as Hb.
  unfold int_max in Hc.
  assert (Z.to_nat (c - 1) ≤ size R); [|lia].
  apply Hb; [lia|]. intros j Hj.
  rewrite probe_wrap, wrap_int_id by (try done; unfold is_int, int_min, int_max; lia).
  apply Hhit. lia.
Qed.

(** Inside [Normalize] the counter does not wrap around: [newName] returns
    the first name at or after the counter that is not reserved. *)
Lemma newName_in_range (prefix : string) (c : Z) (R : gset string) :
  (1 ≤ c ≤ int_max)%Z →
  (∀ i, (1 ≤ i < c)%Z → Sprintf_s_d prefix i ∈ R) →
  (2 * Z.of_nat (size R) + 2 ≤ int_max)%Z →
  ∃ k, (c ≤ k)%Z ∧ (k + 1 ≤ int_max)%Z ∧
       (Sprintf_s_d prefix k ∉ R) ∧
       (∀ i, (c ≤ i < k)%Z → Sprintf_s_d prefix i ∈ R) ∧
       newName prefix c R =
         Done (Sprintf_s_d prefix k, (k + 1)%Z, {[ Sprintf_s_d prefix k ]} ∪ R).
Proof.
  intros Hc Hhit Hsz.
  pose proof (counter_bounded prefix c R Hc Hhit) as Hcb.
  assert (is_int c) as Hint by (unfold is_int, int_min, int_max in *; lia).
  destruct (newName_loop_enough prefix c R Hint) as (i & Hi & Hhit' & Hmiss & Hrun);
    [lia|].
  assert (∀ j, j ≤ i → probe c j = (c + Z.of_nat j)%Z) as Hprobe.
  { intros j Hj. rewrite probe_wrap by done. apply wrap_int_id.
    unfold is_int, int_min, int_max in *. lia. }
  exists (c + Z.of_nat i)%Z. rewrite <-(Hprobe i) by done.
  split; [rewrite Hprobe by done; lia|].
  split; [rewrite Hprobe by done; lia|].
  split; [done|]. split.
  - intros j Hj. rewrite Hprobe in Hj by done.
    replace j with (probe c (Z.to_nat (j - c))).
    + apply Hhit'. lia.
    + rewrite Hprobe by lia. lia.
  - unfold newName. rewrite Hrun by lia. do 3 f_equal.
    apply wrap_int_id. rewrite Hprobe by done.
    unfold is_int, int_min, int_max in *. lia.
Qed.

Section Normalize_invariant.
Context (prefix : string) (R0 : gset string) (bv0 : gmap string BindVariable).

Lemma inv_init : inv prefix R0 bv0 (mkNormState R0 1 ∅ bv0 []).
Proof.
  split; simpl.
  - set_solver.
  - intros name H. by apply not_elem_of_nil in H.
  - apply NoDup_nil_2.
  - by rewrite (left_id_L ∅ (∪)).
  - intros key name H. by rewrite lookup_empty in H.
  - intros k1 k2 name H. by rewrite lookup_empty in H.
  - unfold int_max. lia.
  - intros i Hi. lia.
  - intros name H. by apply not_elem_of_nil in H.
  - intros w H. done.
Qed.

Lemma inv_written_reserved (st : NormState) (name : string) :
  inv prefix R0 bv0 st → name ∈ (st_written st).*1 → name ∈ st_reserved st.
Proof. intros Hinv Hin. rewrite (inv_reserved _ _ _ _ Hinv). set_solver. Qed.

Lemma inv_vals_reserved (st : NormState) (key name : string) :
  inv prefix R0 bv0 st → st_vals st !! key = Some name →
  name ∈ st_reserved st.
Proof.
  intros Hinv Hkey. apply inv_written_reserved; [done|].
  destruct (inv_vals _ _ _ _ Hinv _ _ Hkey) as (typ & val & bval & _ & _ & Hw).
  apply list_elem_of_fmap. by exists (name, bval).
Qed.

(** The state after [newName] returned the name of [k] and the name was
    bound to [bval], with [vals] unchanged or extended by a new key. *)
Lemma inv_assign (st : NormState) (k : Z) (bval : BindVariable)
    (vals' : gmap string string) :
  let name := Sprintf_s_d prefix k in
  inv prefix R0 bv0 st →
  (st_counter st ≤ k)%Z → (k + 1 ≤ int_max)%Z →
  name ∉ st_reserved st →
  (∀ i, (st_counter st ≤ i < k)%Z → Sprintf_s_d prefix i ∈ st_reserved st) →
  (vals' = st_vals st ∨
   ∃ typ val, sqlToBindvar (SQLVal typ val) = Some bval ∧
              st_vals st !! dedup_key bval val = None ∧
              vals' = <[ dedup_key bval val := name ]> (st_vals st)) →
  inv prefix R0 bv0
    (mkNormState ({[ name ]} ∪ st_reserved st) (k + 1) vals'
       (<[ name := bval ]> (st_bindVars st)) ((name, bval) :: st_written st)).
Proof.
  intros name Hinv Hk Hmax Hfresh Hhit Hvals.
  pose proof (inv_counter _ _ _ _ Hinv) as Hc.
  assert (name ∉ (st_written st).*1) as Hnew.
  { intros H. by apply Hfresh, inv_written_reserved. }
  split; simpl.
  - rewrite (inv_reserved _ _ _ _ Hinv). set_solver.
  - intros name' [->|H]%elem_of_cons.
    + intros H. apply Hfresh. rewrite (inv_reserved _ _ _ _ Hinv). set_solver.
    + by apply (inv_fresh _ _ _ _ Hinv).
  - apply NoDup_cons_2; [done|]. apply (inv_nodup _ _ _ _ Hinv).
  - rewrite (inv_bindVars _ _ _ _ Hinv). by rewrite insert_union_l.
  - intros key name' Hkey.
    destruct Hvals as [->|(typ & val & Hconv & Hnone & ->)].
    + destruct (inv_vals _ _ _ _ Hinv _ _ Hkey) as (typ & val & bval' & ? & ? & ?).
      exists typ, val, bval'. split_and!; [done..|]. by apply elem_of_cons; right.
    + destruct (decide (dedup_key bval val = key)) as [<-|Hne].
      * rewrite lookup_insert_eq in Hkey. simplify_eq.
        exists typ, val, bval. split_and!; [done..|]. by apply elem_of_cons; left.
      * rewrite lookup_insert_ne in Hkey by done.
        destruct (inv_vals _ _ _ _ Hinv _ _ Hkey) as (typ' & val' & bval' & ? & ? & ?).
        exists typ', val', bval'. split_and!; [done..|].
        by apply elem_of_cons; right.
  - intros k1 k2 name' H1 H2.
    destruct Hvals as [->|(typ & val & Hconv & Hnone & ->)].
    + by apply (inv_vals_inj _ _ _ _ Hinv k1 k2 name').
    + destruct (decide (dedup_key bval val = k1)) as [<-|Hne1];
        destruct (decide (dedup_key bval val = k2)) as [<-|Hne2]; [done|..].
      * rewrite lookup_insert_eq in H1. rewrite lookup_insert_ne in H2 by done.
        simplify_eq. destruct Hfresh. by eapply inv_vals_reserved.
      * rewrite lookup_insert_eq in H2. rewrite lookup_insert_ne in H1 by done.
        simplify_eq. destruct Hfresh. by eapply inv_vals_reserved.
      * rewrite lookup_insert_ne in H1, H2 by done.
        by apply (inv_vals_inj _ _ _ _ Hinv k1 k2 name').
  - lia.
  - intros i Hi.
    destruct (decide (i = k)) as [->|Hne]; [set_solver|].
    apply elem_of_union; right.
    destruct (decide (i < st_counter st)%Z).
    + apply (inv_probed _ _ _ _ Hinv). lia.
    + apply Hhit. lia.
  - intros name' [->|H]%elem_of_cons.
    + exists k. split; [lia|done].
    + destruct (inv_names _ _ _ _ Hinv _ H) as (n & Hn & ->).
      exists n. split; [lia|done].
  - intros w Hlast.
    destruct (st_written st) as [|w' ws] eqn:Hw.
    + simpl in Hlast. simplify_eq. exists k. simpl. split; [lia|]. split; [done|].
      intros m Hm.
      assert (st_reserved st = R0) as <-.
      { rewrite (inv_reserved _ _ _ _ Hinv), Hw. set_solver. }
      destruct (decide (m < st_counter st)%Z).
      * apply (inv_probed _ _ _ _ Hinv). lia.
      * apply Hhit. lia.
    + apply (inv_first _ _ _ _ Hinv). by rewrite Hw.
Qed.

Lemma newName_step (st : NormState) :
  inv prefix R0 bv0 st →
  (2 * Z.of_nat (size (st_reserved st)) + 2 ≤ int_max)%Z →
  ∃ k, (st_counter st ≤ k)%Z ∧ (k + 1 ≤ int_max)%Z ∧
       (Sprintf_s_d prefix k ∉ st_reserved st) ∧
       (∀ i, (st_counter st ≤ i < k)%Z →
             Sprintf_s_d prefix i ∈ st_reserved st) ∧
       size ({[ Sprintf_s_d prefix k ]} ∪ st_reserved st)
         = S (size (st_reserved st)) ∧
       newName prefix (st_counter st) (st_reserved st) =
         Done (Sprintf_s_d prefix k, (k + 1)%Z,
               {[ Sprintf_s_d prefix k ]} ∪ st_reserved st).
Proof.
  intros Hinv Hsz.
  destruct (newName_in_range prefix (st_counter st) (st_reserved st))
    as (k & ? & ? & Hfresh & ? & ?);
    [apply (inv_counter _ _ _ _ Hinv)|apply (inv_probed _ _ _ _ Hinv)|done|].
  exists k. split_and!; try done.
  rewrite size_union, size_singleton by set_solver. done.
Qed.

Lemma ext_refl (st : NormState) : ext st st.
Proof. split; [done|]. by exists []. Qed.

Lemma ext_trans (st1 st2 st3 : NormState) :
  ext st1 st2 → ext st2 st3 → ext st1 st3.
Proof.
  intros [Hv1 [n1 Hw1]] [Hv2 [n2 Hw2]]. split; [by etrans|].
  exists (n2 ++ n1). by rewrite Hw2, Hw1, (assoc_L (++)).
Qed.

Lemma ext_written (st st' : NormState) (w : string * BindVariable) :
  ext st st' → w ∈ st_written st → w ∈ st_written st'.
Proof. intros [_ [new ->]] Hw. apply elem_of_app. by right. Qed.

(** One visit: the node is a literal that is replaced by a placeholder, a
    comparison whose tuple is replaced by a list placeholder, or it is
    left as it is. The visitor always asks to continue and never
    fails. *)
Lemma Normalize_visit_step (st : NormState) (node : SQLNode) :
  inv prefix R0 bv0 st →
  (2 * Z.of_nat (size (st_reserved st)) + 2 ≤ int_max)%Z →
  ∃ st1 node1,
    Normalize_visit prefix st node = Done (st1, node1, (true, None)) ∧
    inv prefix R0 bv0 st1 ∧ ext st st1 ∧
    size (st_reserved st1) ≤ S (size (st_reserved st)) ∧
    visited st st1 node node1.
Proof.
  intros Hinv Hsz.
  assert (∀ n, sqlToBindvar n = None → list_values n = None →
    Normalize_visit prefix st n = Done (st, n, (true, None)) →
    ∃ st1 node1,
      Normalize_visit prefix st n = Done (st1, node1, (true, None)) ∧
      inv prefix R0 bv0 st1 ∧ ext st st1 ∧
      size (st_reserved st1) ≤ S (size (st_reserved st)) ∧
      visited st st1 n node1) as Hskip.
  { intros n H1 H2 H3. exists st, n. split_and!; [done|done|apply ext_refl|lia|].
    by right; right. }
  destruct (newName_step st Hinv Hsz) as (k & Hk & Hmax & Hfresh & Hhit & Hsize & Hrun).
  destruct node as [typ val|val|elems|op l r|kind subtrees];
    try (by apply Hskip).
  - (* a literal *)
    destruct (sqlToBindvar (SQLVal typ val)) as [bval|] eqn:Hconv; last first.
    { apply Hskip; [done..|]. unfold Normalize_visit. by rewrite Hconv. }
    unfold Normalize_visit. rewrite Hconv.
    destruct (st_vals st !! dedup_key bval val) as [name|] eqn:Hkey.
    + exists st, (SQLVal ValArg (":" +:+ name)).
      split_and!; [done|done|apply ext_refl|lia|].
      left. by exists typ, val, bval, name.
    + rewrite Hrun. simpl.
      eexists _, _. split; [done|]. split_and!.
      * apply inv_assign; try done. right. by exists typ, val.
      * split; simpl; [by apply insert_subseteq|].
        by exists [(Sprintf_s_d prefix k, bval)].
      * simpl. lia.
      * left. exists typ, val, bval, (Sprintf_s_d prefix k).
        split_and!; try done. simpl. by rewrite lookup_insert_eq.
  - (* a comparison *)
    destruct (list_values (ComparisonExpr op l r)) as [values|] eqn:Hlist; last first.
    { apply Hskip; [done..|]. unfold Normalize_visit. simpl in Hlist.
      destruct r; try by case_decide.
      case_decide; [|done]. by rewrite Hlist. }
    simpl in Hlist. destruct r as [| |elems| |]; try done.
    case_decide as Hop; [|done].
    unfold Normalize_visit. rewrite decide_True by done.
    rewrite Hlist, Hrun. simpl.
    eexists _, _. split; [done|]. split_and!.
    * apply inv_assign; try done. by left.
    * split; simpl; [done|].
      by exists [(Sprintf_s_d prefix k, mkBindVariable Type_TUPLE "" values)].
    * simpl. lia.
    * right; left. exists op, l, elems, values, (Sprintf_s_d prefix k).
      split_and!; try done.
      -- simpl. by rewrite decide_True.
      -- simpl. by apply elem_of_cons; left.
Qed.

Lemma rewritten_ListArg (V : gmap string string)
    (W : list (string * BindVariable)) (val : string) (node' : SQLNode) :
  rewritten V W (ListArg val) node' → node' = ListArg val.
Proof.
  inversion 1 as [| |node cs Hconv Hlist Hcs]; subst.
  simpl in Hcs. by apply Forall2_nil_inv_l in Hcs as ->.
Qed.

(** The walk of [Normalize] from any state that satisfies the invariant:
    it returns without an error, the invariant holds again, and every
    node is rewritten according to the final state or a later one. *)
Lemma Walk_Normalize (B : nat) :
  (2 * Z.of_nat B + 2 ≤ int_max)%Z →
  ∀ (fuel : nat) (nodes : list SQLNode) (st : NormState),
    Forall (λ n, depth n < fuel) nodes →
    inv prefix R0 bv0 st →
    size (st_reserved st) + length (flat_map subnodes nodes) ≤ B →
    ∃ st' nodes',
      Walk fuel (Normalize_visit prefix) st nodes = Done (st', nodes', None) ∧
      inv prefix R0 bv0 st' ∧ ext st st' ∧
      size (st_reserved st')
        ≤ size (st_reserved st) + length (flat_map subnodes nodes) ∧
      ∀ V W, st_vals st' ⊆ V → st_written st' ⊆ W →
             Forall2 (rewritten V W) nodes nodes'.
Proof.
  intros HB. induction fuel as [|fuel IH]; intros nodes st Hd Hinv Hsz.
  { destruct nodes as [|n nodes]; [|apply Forall_cons in Hd as [? _]; lia].
    exists st, []. split_and!; [done|done|apply ext_refl|lia|by constructor]. }
  induction nodes as [|n nodes IHn] in st, Hd, Hinv, Hsz |- *.
  { exists st, []. rewrite Walk_nil.
    split_and!; [done|done|apply ext_refl|lia|by constructor]. }
  apply Forall_cons in Hd as [Hn Hd].
  simpl flat_map in Hsz |- *. rewrite subnodes_unfold in Hsz |- *.
  simpl length in Hsz |- *. rewrite !length_app in Hsz |- *.
  rewrite Walk_cons.
  destruct (Normalize_visit_step st n Hinv) as (st1 & n1 & Hrun & Hinv1 & Hext1 & Hsz1 & Hshape);
    [lia|].
  rewrite Hrun. simpl.
  assert (Forall (λ c, depth c < fuel) (children n1) ∧
          length (flat_map subnodes (children n1))
            ≤ length (flat_map subnodes (children n))) as [Hdc Hlc].
  { destruct Hshape as [(typ & val & bval & name & -> & _ & _ & ->)
                       |[(op & l & elems & values & name & -> & _ & _ & ->)
                        |(_ & _ & -> & _)]].
    - split; [by constructor|simpl; lia].
    - split.
      + simpl in Hn. repeat constructor; simpl; lia.
      + simpl. rewrite !length_app. simpl. lia.
    - split; [|done]. apply Forall_forall. intros c Hc.
      apply depth_children in Hc. lia. }
  destruct (IH (children n1) st1 Hdc Hinv1) as (st2 & cs & Hwalk & Hinv2 & Hext2 & Hsz2 & Hrw2);
    [lia|].
  rewrite Hwalk. simpl.
  destruct (IHn st2 Hd Hinv2) as (st3 & rest' & Hrest & Hinv3 & Hext3 & Hsz3 & Hrw3);
    [lia|].
  rewrite Hrest. simpl.
  exists st3, (with_children n1 cs :: rest').
  split_and!; [done|done| |lia|].
  { eapply ext_trans; [done|]. by eapply ext_trans. }
  intros V W HV HW. constructor; [|by apply Hrw3].
  assert (st_vals st2 ⊆ V) as HV2 by (etrans; [apply Hext3|done]).
  assert (st_written st2 ⊆ W) as HW2.
  { intros w Hw. by apply HW, (ext_written st2). }
  specialize (Hrw2 V W HV2 HW2).
  destruct Hshape as [(typ & val & bval & name & -> & Hconv & Hkey & ->)
                     |[(op & l & elems & values & name & -> & Hlist & Hin & ->)
                      |(Hconv & Hlist & -> & _)]].
  - simpl. econstructor; [done|].
    eapply lookup_weaken; [done|]. etrans; [apply Hext2|done].
  - simpl in Hrw2.
    apply Forall2_cons_inv_l in Hrw2 as (l' & cs' & Hl & Hcs & ->).
    apply Forall2_cons_inv_l in Hcs as (la & cs'' & Hla & Hnil & ->).
    apply Forall2_nil_inv_l in Hnil as ->.
    apply rewritten_ListArg in Hla as ->. simpl.
    econstructor; [done| |done].
    apply HW, (ext_written st2); [done|]. by apply (ext_written st1).
  - by constructor.
Qed.
End Normalize_invariant.

(** ** Normalize *)

(** On a statement without a truncated placeholder [Normalize] returns:
    the walk ends without an error, in a state that satisfies the
    invariant, with the statement rewritten according to that state. *)
Lemma Normalize_walk_spec (stmt : Statement)
    (bindVars : gmap string BindVariable) (prefix : string) :
  existsb truncated (subnodes stmt) = false → fits_int stmt →
  ∃ st stmt',
    Normalize_walk stmt bindVars prefix = Done (st, [stmt'], None) ∧
    Normalize stmt bindVars prefix = Done (stmt', st_bindVars st) ∧
    inv prefix (bindvars_of (subnodes stmt)) bindVars st ∧
    rewritten (st_vals st) (st_written st) stmt stmt'.
Proof.
  intros Htr Hfit. unfold Normalize, Normalize_walk.
  rewrite GetBindvars_spec, Htr. simpl.
  pose proof (size_bindvars_of (subnodes stmt)) as Hsz.
  unfold fits_int, int_max in Hfit.
  destruct (Walk_Normalize prefix (bindvars_of (subnodes stmt)) bindVars
              (2 * length (subnodes stmt))) with
    (fuel := S (depth stmt)) (nodes := [stmt])
    (st := mkNormState (bindvars_of (subnodes stmt)) 1 ∅ bindVars [])
    as (st & nodes' & Hwalk & Hinv & _ & _ & Hrw).
  - unfold int_max. lia.
  - apply Forall_singleton. lia.
  - apply inv_init.
  - simpl. rewrite app_nil_r. lia.
  - assert (Forall2 (rewritten (st_vals st) (st_written st)) [stmt] nodes')
      as Hrw' by (by apply Hrw).
    apply Forall2_cons_inv_l in Hrw' as (stmt' & rest & Hrw' & Hnil & ->).
    apply Forall2_nil_inv_l in Hnil as ->.
    exists st, stmt'. rewrite Hwalk. by simpl.
Qed.

Lemma children_with_children (node : SQLNode) (cs : list SQLNode) :
  length cs = length (children node) → children (with_children node cs) = cs.
Proof.
  destruct node as [typ val|val|elems|op l r|kind subtrees]; simpl; try done.
  - by destruct cs.
  - by destruct cs.
  - by destruct cs as [|? [|? [|? ?]]].
Qed.

(** A visited position of the statement holds, after the walk, the
    rewriting of the node it held before. *)
Lemma rewritten_node_at (V : gmap string string)
    (W : list (string * BindVariable)) (path : list nat)
    (node node' m : SQLNode) :
  rewritten V W node node' →
  reached path node = true →
  node_at path node = Some m →
  ∃ m', node_at path node' = Some m' ∧ rewritten V W m m'.
Proof.
  revert node node'. induction path as [|i path IH]; intros node node' Hrw Hreach Hat.
  { simpl in Hat. simplify_eq. by exists node'. }
  simpl in Hreach, Hat.
  destruct (children node !! i) as [c|] eqn:Hc; [|done].
  destruct Hrw as [typ val bval name Hconv Hkey
                  |op l l' elems values name Hlist Hin Hl
                  |node cs Hconv Hlist Hcs].
  - done.
  - rewrite Hlist in Hreach. apply andb_true_iff in Hreach as [Hi Hreach].
    apply bool_decide_eq_true in Hi as ->. simpl in Hc. simplify_eq.
    simpl. by apply (IH c).
  - rewrite Hlist in Hreach.
    destruct (Forall2_lookup_l _ _ _ _ _ Hcs Hc) as (c' & Hc' & Hrw').
    simpl. rewrite children_with_children, Hc'.
    + by apply (IH c).
    + symmetry. by eapply Forall2_length.
Qed.

(** ** Bind values and dedup keys *)

Lemma sqlToBindvar_Some (typ : ValType) (val : string) (bval : BindVariable) :
  sqlToBindvar (SQLVal typ val) = Some bval →
  Value_ bval = val ∧ Values bval = [] ∧
  ((typ = StrVal ∧ Type_ bval = VarBinary)
   ∨ (typ = IntVal ∧ Type_ bval = Int64 ∧ is_Some (ParseInt val))
   ∨ (typ = FloatVal ∧ Type_ bval = Float64 ∧ ParseFloat_ok val = true)).
Proof.
  unfold sqlToBindvar, NewValue. intros H.
  destruct typ; simplify_eq/=.
  - split_and!; [done..|]. by left.
  - destruct (ParseInt val) eqn:Hp; simplify_eq/=.
    split_and!; [done..|]. right; left. by split_and!.
  - destruct (ParseFloat_ok val) eqn:Hp; simplify_eq/=.
    split_and!; [done..|]. by right; right.
Qed.

Lemma ParseInt_quote (s : string) : ParseInt (String "'" s) = None.
Proof. done. Qed.

(** Two literals with bind values have the same key only if they have the
    same raw text and are both strings or both numbers. *)
Lemma dedup_key_inj (typ1 typ2 : ValType) (val1 val2 : string)
    (bval1 bval2 : BindVariable) :
  sqlToBindvar (SQLVal typ1 val1) = Some bval1 →
  sqlToBindvar (SQLVal typ2 val2) = Some bval2 →
  dedup_key bval1 val1 = dedup_key bval2 val2 →
  val1 = val2 ∧ (typ1 = StrVal ↔ typ2 = StrVal).
Proof.
  intros H1 H2 Hkey.
  apply sqlToBindvar_Some in H1 as (_ & _ & H1).
  apply sqlToBindvar_Some in H2 as (_ & _ & H2).
  unfold dedup_key in Hkey.
  destruct H1 as [[-> Ht1]|[(-> & Ht1 & Hp1)|(-> & Ht1 & Hp1)]];
    destruct H2 as [[-> Ht2]|[(-> & Ht2 & Hp2)|(-> & Ht2 & Hp2)]];
    rewrite Ht1, Ht2 in Hkey; simpl in Hkey; simplify_eq/=;
    try (split; [done|]; split; done).
  - change ("'" +:+ val1) with (String "'" val1) in Hp2.
    rewrite ParseInt_quote in Hp2. by destruct Hp2.
  - change ("'" +:+ val2) with (String "'" val2) in Hp1.
    rewrite ParseInt_quote in Hp1. by destruct Hp1.
Qed.

(** ** Placeholders of a well-formed statement *)

Lemma bindvar_name_sigil (n : SQLNode) (name : string) :
  has_sigil n = true → bindvar_name n = Some name →
  n = SQLVal ValArg (":" +:+ name) ∨ n = ListArg ("::" +:+ name).
Proof.
  destruct n as [typ val|val|elems|op l r|kind subtrees]; simpl; try done.
  - destruct typ; try done. destruct val as [|c val]; [done|].
    intros Hs [= ->]. left.
    destruct c as [[] [] [] [] [] [] [] []]; by simplify_eq/=.
  - destruct val as [|c [|c' val]]; try done.
    intros Hs [= ->]. right.
    destruct c as [[] [] [] [] [] [] [] []]; simplify_eq/=;
      destruct c' as [[] [] [] [] [] [] [] []]; by simplify_eq/=.
Qed.

Lemma well_formed_bindvars (stmt : Statement) (name : string) :
  well_formed stmt = true →
  name ∈ bindvars_of (subnodes stmt) ↔
    SQLVal ValArg (":" +:+ name) ∈ subnodes stmt
    ∨ ListArg ("::" +:+ name) ∈ subnodes stmt.
Proof.
  intros Hwf. rewrite elem_of_bindvars_of. split.
  - intros (n & Hn & Hname).
    unfold well_formed in Hwf. rewrite forallb_forall in Hwf.
    assert (has_sigil n = true) as Hs by (by apply Hwf, list_elem_of_In).
    by destruct (bindvar_name_sigil n name Hs Hname) as [<-|<-]; [left|right].
  - intros [H|H]; eexists; (split; [exact H|done]).
Qed.

(** ** The bind variables after the walk *)

Lemma written_lookup (prefix : string) (R0 : gset string)
    (bv0 : gmap string BindVariable) (st : NormState) (name : string)
    (bval : BindVariable) :
  inv prefix R0 bv0 st → (name, bval) ∈ st_written st →
  st_bindVars st !! name = Some bval.
Proof.
  intros Hinv Hin. rewrite (inv_bindVars _ _ _ _ Hinv).
  apply lookup_union_Some_l, elem_of_list_to_map_1; [|done].
  apply (inv_nodup _ _ _ _ Hinv).
Qed.

Lemma unwritten_lookup (prefix : string) (R0 : gset string)
    (bv0 : gmap string BindVariable) (st : NormState) (key : string) :
  inv prefix R0 bv0 st → key ∉ (st_written st).*1 →
  st_bindVars st !! key = bv0 !! key.
Proof.
  intros Hinv Hout. rewrite (inv_bindVars _ _ _ _ Hinv).
  apply lookup_union_r. by apply not_elem_of_list_to_map_1.
Qed.

Lemma filter_no_key (l : list (string * BindVariable)) (name : string) :
  name ∉ l.*1 → filter (λ w, w.1 = name) l = [].
Proof.
  induction l as [|[k v] l IH]; intros Hout; [done|].
  simpl in Hout. apply not_elem_of_cons in Hout as [Hne Hout].
  rewrite filter_cons_False by (simpl; congruence). by apply IH.
Qed.

Lemma filter_written (l : list (string * BindVariable)) (name : string)
    (bval : BindVariable) :
  NoDup l.*1 → (name, bval) ∈ l →
  filter (λ w, w.1 = name) l = [(name, bval)].
Proof.
  induction l as [|[k v] l IH]; intros Hnd Hin.
  { by apply not_elem_of_nil in Hin. }
  simpl in Hnd. apply NoDup_cons in Hnd as [Hk Hnd].
  apply elem_of_cons in Hin as [[= <- <-]|Hin].
  - rewrite filter_cons_True by done. f_equal. by apply filter_no_key.
  - rewrite filter_cons_False; [by apply IH|].
    simpl. intros ->. apply Hk, list_elem_of_fmap. by exists (name, bval).
Qed.

(** ** What becomes of literals and tuples *)

Lemma rewritten_literal (V : gmap string string)
    (W : list (string * BindVariable)) (typ : ValType) (val : string)
    (bval : BindVariable) (m' : SQLNode) :
  sqlToBindvar (SQLVal typ val) = Some bval →
  rewritten V W (SQLVal typ val) m' →
  ∃ name, V !! dedup_key bval val = Some name ∧
          m' = SQLVal ValArg (":" +:+ name).
Proof.
  intros Hconv Hrw.
  inversion Hrw as [typ' val' bval' name Hconv' Hkey| |node cs Hnone _ _]; subst.
  - rewrite Hconv in Hconv'. simplify_eq. by exists name.
  - by rewrite Hconv in Hnone.
Qed.

Lemma rewritten_ValTuple (V : gmap string string)
    (W : list (string * BindVariable)) (elems : list SQLNode) (m' : SQLNode) :
  rewritten V W (ValTuple elems) m' →
  ∃ elems', m' = ValTuple elems' ∧ Forall2 (rewritten V W) elems elems'.
Proof.
  inversion 1 as [| |node cs _ _ Hcs]; subst. by exists cs.
Qed.

Lemma rewritten_partial_tuple (V : gmap string string)
    (W : list (string * BindVariable)) (op : string) (l : SQLNode)
    (elems : list SQLNode) (m' : SQLNode) :
  list_values (ComparisonExpr op l (ValTuple elems)) = None →
  rewritten V W (ComparisonExpr op l (ValTuple elems)) m' →
  ∃ l' elems', m' = ComparisonExpr op l' (ValTuple elems') ∧
               rewritten V W l l' ∧
               Forall2 (rewritten V W) elems elems'.
Proof.
  intros Hnone Hrw.
  inversion Hrw as [|op' l0 l' elems0 values name Hsome _ _
                    |node cs _ _ Hcs]; subst.
  - by rewrite Hnone in Hsome.
  - simpl in Hcs.
    apply Forall2_cons_inv_l in Hcs as (l' & cs' & Hl & Hcs & ->).
    apply Forall2_cons_inv_l in Hcs as (t' & cs'' & Ht & Hnil & ->).
    apply Forall2_nil_inv_l in Hnil as ->.
    apply rewritten_ValTuple in Ht as (elems' & -> & Helems).
    by exists l', elems'.
Qed.

Lemma tuple_values_None (tupleVals : list SQLNode) (acc : list Value) :
  tuple_values tupleVals acc = None ↔
  ∃ e, e ∈ tupleVals ∧ sqlToBindvar e = None.
Proof.
  revert acc. induction tupleVals as [|val rest IH]; intros acc; simpl.
  - split; [done|]. intros (e & He & _). by apply not_elem_of_nil in He.
  - destruct (sqlToBindvar val) as [bval|] eqn:Hconv.
    + rewrite IH. split.
      * intros (e & He & Hnone). exists e. split; [by apply elem_of_cons; right|done].
      * intros (e & [->|He]%elem_of_cons & Hnone); [congruence|by exists e].
    + split; [|done]. intros _. exists val. split; [by apply elem_of_cons; left|done].
Qed.

(** The entry a literal is bound to: the bind value of a literal with the
    same key, hence with the same raw text, and of type [VarBinary] exactly
    for a string. *)
Lemma literal_binding (prefix : string) (R0 : gset string)
    (bv0 : gmap string BindVariable) (st : NormState) (typ : ValType)
    (val name : string) (bval : BindVariable) :
  inv prefix R0 bv0 st →
  sqlToBindvar (SQLVal typ val) = Some bval →
  st_vals st !! dedup_key bval val = Some name →
  ∃ bval', (name, bval') ∈ st_written st ∧
           st_bindVars st !! name = Some bval' ∧
           Value_ bval' = val ∧ Values bval' = [] ∧
           (Type_ bval' = VarBinary ↔ typ = StrVal) ∧
           (typ = StrVal → bval' = bval).
Proof.
  intros Hinv Hconv Hkey.
  destruct (inv_vals _ _ _ _ Hinv _ _ Hkey) as (typ0 & val0 & bval0 & Hconv0 & Heq & Hw).
  destruct (dedup_key_inj _ _ _ _ _ _ Hconv Hconv0 Heq) as [<- Hstr].
  exists bval0. split; [done|]. split; [by eapply written_lookup|].
  pose proof (sqlToBindvar_Some _ _ _ Hconv0) as (Hv & Hvs & Ht).
  split_and!; [done|done| |].
  - rewrite Hstr. destruct Ht as [[-> ->]|[(-> & -> & _)|(-> & -> & _)]];
      by split.
  - intros ->. assert (typ0 = StrVal) as -> by (by apply Hstr).
    rewrite Hconv in Hconv0. by simplify_eq.
Qed.

Lemma rewritten_skipped_literal (V : gmap string string)
    (W : list (string * BindVariable)) (typ : ValType) (val : string)
    (m' : SQLNode) :
  sqlToBindvar (SQLVal typ val) = None →
  rewritten V W (SQLVal typ val) m' → m' = SQLVal typ val.
Proof.
  intros Hnone Hrw.
  inversion Hrw as [typ' val' bval' name Hconv' Hkey| |node cs _ _ Hcs]; subst.
  - by rewrite Hnone in Hconv'.
  - simpl in Hcs. by apply Forall2_nil_inv_l in Hcs as ->.
Qed.

Lemma tuple_values_literals (tupleVals : list SQLNode) (acc values : list Value)
    (e : SQLNode) :
  tuple_values tupleVals acc = Some values → e ∈ tupleVals →
  ∃ typ val, e = SQLVal typ val.
Proof.
  revert acc. induction tupleVals as [|val rest IH]; intros acc Hsome He.
  { by apply not_elem_of_nil in He. }
  simpl in Hsome. destruct (sqlToBindvar val) as [bval|] eqn:Hconv; [|done].
  apply elem_of_cons in He as [->|He]; [|by eapply IH].
  destruct val; try done. by eexists _, _.
Qed.

(** Every position that holds something other than a literal or a tuple is
    visited. *)
Lemma reached_inner (path : list nat) (node m : SQLNode) :
  node_at path node = Some m →
  (∀ typ val, m ≠ SQLVal typ val) → (∀ elems, m ≠ ValTuple elems) →
  reached path node = true.
Proof.
  intros Hat Hlit Htup. revert node Hat.
  induction path as [|i path IH]; intros node Hat; [done|].
  simpl in *. destruct (children node !! i) as [c|] eqn:Hc; [|done].
  destruct (list_values node) as [values|] eqn:Hlist; [|by apply IH].
  destruct node as [| | |op l r|]; try done.
  destruct r as [| |elems| |]; try done. simpl in Hlist.
  case_decide; [|done].
  destruct i as [|[|i]]; simpl in Hc; simplify_eq.
  - simpl. by apply IH.
  - exfalso. destruct path as [|j path]; simpl in Hat; simplify_eq.
    { by eapply Htup. }
    destruct (elems !! j) as [e|] eqn:He; [|done].
    apply list_elem_of_lookup_2 in He.
    destruct (tuple_values_literals _ _ _ _ Hlist He) as (typ & val & ->).
    destruct path as [|k path]; simpl in Hat; simplify_eq.
    by eapply Hlit.
Qed.

(** ** Decimal text *)

Lemma digit_of_pretty_N_char (d : N) :
  (d < 10)%N → digit_of (pretty_N_char d) = Some (Z.of_N d).
Proof.
  intros Hd.
  assert (d = 0 ∨ d = 1 ∨ d = 2 ∨ d = 3 ∨ d = 4 ∨ d = 5 ∨ d = 6 ∨ d = 7
          ∨ d = 8 ∨ d = 9)%N as Hcases by lia.
  repeat destruct Hcases as [->|Hcases]; try done. by subst.
Qed.

Lemma skip_sign_digit (c : ascii) (t : string) :
  is_Some (digit_of c) → skip_sign (String c t) = String c t.
Proof.
  intros [d Hd]. destruct c as [[] [] [] [] [] [] [] []]; by simplify_eq/=.
Qed.

Lemma not_minus_digit (c : ascii) :
  is_Some (digit_of c) → c ≠ "-"%char.
Proof. intros [d Hd] ->. by vm_compute in Hd. Qed.

(** Parsing the digits that [pretty] printed gives the number back. *)
Lemma parse_digits_pretty_N_go (x : N) :
  ∃ k : Z, (0 ≤ k)%Z ∧
    ∀ s acc, parse_digits acc (pretty_N_go x s)
             = parse_digits (acc * 10 ^ k + Z.of_N x)%Z s.
Proof.
  induction (N.lt_wf_0 x) as [x _ IH].
  destruct (decide (x = 0)%N) as [->|Hx].
  { exists 0%Z. split; [done|]. intros s acc. rewrite pretty_N_go_0.
    f_equal. lia. }
  destruct (IH (x `div` 10)%N) as (k & Hk & Hparse).
  { apply N.div_lt; lia. }
  exists (k + 1)%Z. split; [lia|]. intros s acc.
  rewrite pretty_N_go_step by lia. rewrite Hparse. simpl.
  rewrite digit_of_pretty_N_char by (apply N.mod_lt; lia).
  f_equal. rewrite Z.pow_add_r by lia.
  rewrite N2Z.inj_mod, N2Z.inj_div. change (Z.of_N 10) with 10%Z.
  change (10 ^ 1)%Z with 10%Z.
  pose proof (Z.div_mod (Z.of_N x) 10 ltac:(lia)). lia.
Qed.

Lemma pretty_N_go_digit (x : N) (s : string) :
  (0 < x)%N →
  ∃ c t, pretty_N_go x s = String c t ∧ is_Some (digit_of c).
Proof.
  revert s. induction (N.lt_wf_0 x) as [x _ IH]; intros s Hx.
  rewrite pretty_N_go_step by done.
  destruct (decide (x `div` 10 = 0)%N) as [->|Hdiv].
  - rewrite pretty_N_go_0. eexists _, _. split; [done|].
    rewrite digit_of_pretty_N_char by (apply N.mod_lt; lia). done.
  - apply IH; [apply N.div_lt; lia|]. by apply N.neq_0_lt_0.
Qed.

(** The decimal text of a 64-bit signed integer parses to that integer. *)
Lemma ParseInt_pretty (z : Z) : is_int z → ParseInt (pretty z) = Some z.
Proof.
  intros Hz. destruct z as [|p|p]; [done|..].
  - unfold pretty, pretty_Z, pretty, pretty_positive, pretty, pretty_N.
    rewrite decide_False by done.
    destruct (pretty_N_go_digit (N.pos p) "" ltac:(lia)) as (c & t & Heq & Hc).
    destruct (parse_digits_pretty_N_go (N.pos p)) as (k & Hk & Hparse).
    assert (parse_digits 0 (String c t) = Some (Z.pos p)) as Hp.
    { rewrite <-Heq, Hparse. simpl. f_equal. }
    unfold ParseInt. rewrite Heq, skip_sign_digit, Hp by done.
    pose proof (not_minus_digit c Hc) as Hne.
    assert (match c with "-"%char => (- Z.pos p)%Z | _ => Z.pos p end
            = Z.pos p) as ->.
    { destruct c as [[] [] [] [] [] [] [] []]; done. }
    by rewrite decide_True.
  - unfold pretty, pretty_Z, pretty, pretty_positive, pretty, pretty_N.
    rewrite decide_False by done.
    destruct (pretty_N_go_digit (N.pos p) "" ltac:(lia)) as (c & t & Heq & Hc).
    destruct (parse_digits_pretty_N_go (N.pos p)) as (k & Hk & Hparse).
    assert (parse_digits 0 (String c t) = Some (Z.pos p)) as Hp.
    { rewrite <-Heq, Hparse. simpl. f_equal. }
    unfold ParseInt. rewrite Heq. simpl in Hp |- *. rewrite Hp.
    by rewrite decide_True.
Qed.

(** ** The bound of the recursion is not observable *)


(** Small statements fit. *)
Lemma fits_int_small (stmt : Statement) :
  (length (subnodes stmt) <? 1000) = true → fits_int stmt.
Proof.
  unfold fits_int, int_max. intros H%Nat.ltb_lt. lia.
Qed.

(** * The claims *)

(** C1 as stated fails: when an element of the tuple has no bind value, the
    comparison is not left as it was: the walk goes on into the tuple and
    replaces the elements that have one. *)
Lemma Normalize_rewrites_inside_partial_tuple :
  ¬ (∀ (stmt stmt' : Statement) (bindVars bindVars' : gmap string BindVariable)
       (prefix : string) (path : list nat) (op : string) (l : SQLNode)
       (elems : list SQLNode),
       node_at path stmt = Some (ComparisonExpr op l (ValTuple elems)) →
       op = InStr ∨ op = NotInStr →
       (∃ e, e ∈ elems ∧ sqlToBindvar e = None) →
       Normalize stmt bindVars prefix = Done (stmt', bindVars') →
       node_at path stmt' = Some (ComparisonExpr op l (ValTuple elems))).
Proof.
  intros H.
  pose proof (H stmt_in_partial
    (OtherNode "select"
       [OtherNode "where"
          [ComparisonExpr "in" (OtherNode "x" [])
             (ValTuple [SQLVal ValArg ":v1"; SQLVal ValArg ":v2";
                        SQLVal (OtherVal 0) "0x1F"])]])
    ∅
    {[ "v1" := mkBindVariable Int64 "1" [];
       "v2" := mkBindVariable Int64 "2" [] ]}
    "v" [0; 0] "in" (OtherNode "x" [])
    [SQLVal IntVal "1"; SQLVal IntVal "2"; SQLVal (OtherVal 0) "0x1F"])
    as Hnode.
  assert (node_at [0; 0]
            (OtherNode "select"
               [OtherNode "where"
                  [ComparisonExpr "in" (OtherNode "x" [])
                     (ValTuple [SQLVal ValArg ":v1"; SQLVal ValArg ":v2";
                                SQLVal (OtherVal 0) "0x1F"])]])
          = Some (ComparisonExpr "in" (OtherNode "x" [])
                    (ValTuple [SQLVal IntVal "1"; SQLVal IntVal "2";
                               SQLVal (OtherVal 0) "0x1F"]))) as Habs.
  { apply Hnode.
    - done.
    - by left.
    - exists (SQLVal (OtherVal 0) "0x1F"). split; [|done].
      do 2 (apply elem_of_cons; right). by apply elem_of_cons; left.
    - by vm_compute. }
  by vm_compute in Habs.
Qed.

(** C1, amended. When an element of the tuple of an IN or NOT IN comparison
    has no bind value, [Normalize] does not replace the tuple by a list
    placeholder: the right operand stays a tuple of the same length. The
    walk goes on into the tuple: every element that is a literal with a bind
    value is replaced by a scalar placeholder whose name is bound, in the
    bind variables, to a value with the raw text of the literal, and every
    literal without a bind value is left as it is. *)
Theorem Normalize_partial_tuple (stmt : Statement)
    (bindVars : gmap string BindVariable) (prefix : string)
    (path : list nat) (op : string) (l : SQLNode) (elems : list SQLNode) :
  well_formed stmt = true → fits_int stmt →
  node_at path stmt = Some (ComparisonExpr op l (ValTuple elems)) →
  op = InStr ∨ op = NotInStr →
  (∃ e, e ∈ elems ∧ sqlToBindvar e = None) →
  ∃ (stmt' : Statement) (bindVars' : gmap string BindVariable)
    (l' : SQLNode) (elems' : list SQLNode),
    Normalize stmt bindVars prefix = Done (stmt', bindVars') ∧
    node_at path stmt' = Some (ComparisonExpr op l' (ValTuple elems')) ∧
    length elems' = length elems ∧
    ∀ i typ val, elems !! i = Some (SQLVal typ val) →
      match sqlToBindvar (SQLVal typ val) with
      | Some bval =>
          ∃ name bval',
            elems' !! i = Some (SQLVal ValArg (":" +:+ name)) ∧
            bindVars' !! name = Some bval' ∧
            Value_ bval' = val ∧ Values bval' = [] ∧
            (Type_ bval' = VarBinary ↔ typ = StrVal)
      | None => elems' !! i = Some (SQLVal typ val)
      end.
Proof.
  intros Hwf Hfit Hat Hop Hfail.
  pose proof (well_formed_not_truncated stmt Hwf) as Htr.
  destruct (Normalize_walk_spec stmt bindVars prefix Htr Hfit)
    as (st & stmt' & Hwalk & Hrun & Hinv & Hrw).
  assert (reached path stmt = true) as Hreach by (by eapply reached_inner).
  destruct (rewritten_node_at _ _ _ _ _ _ Hrw Hreach Hat) as (m' & Hat' & Hm).
  assert (list_values (ComparisonExpr op l (ValTuple elems)) = None) as Hnone.
  { simpl. rewrite decide_True by done. by apply tuple_values_None. }
  destruct (rewritten_partial_tuple _ _ _ _ _ _ Hnone Hm)
    as (l' & elems' & -> & _ & Helems).
  exists stmt', (st_bindVars st), l', elems'.
  split_and!; [done|done|symmetry; by eapply Forall2_length|].
  intros i typ val Hi.
  destruct (Forall2_lookup_l _ _ _ _ _ Helems Hi) as (e' & Hi' & He).
  destruct (sqlToBindvar (SQLVal typ val)) as [bval|] eqn:Hconv.
  - destruct (rewritten_literal _ _ _ _ _ _ Hconv He) as (name & Hkey & ->).
    destruct (literal_binding _ _ _ _ _ _ _ _ Hinv Hconv Hkey)
      as (bval' & _ & Hb & Hv & Hvs & Ht & _).
    by exists name, bval'.
  - by rewrite (rewritten_skipped_literal _ _ _ _ _ Hconv He) in Hi'.
Qed.

Lemma Normalize_partial_tuple_witness :
  well_formed stmt_in_partial = true ∧ fits_int stmt_in_partial ∧
  node_at [0; 0] stmt_in_partial
    = Some (ComparisonExpr "in" (OtherNode "x" [])
              (ValTuple [SQLVal IntVal "1"; SQLVal IntVal "2";
                         SQLVal (OtherVal 0) "0x1F"])) ∧
  ("in" = InStr ∨ "in" = NotInStr) ∧
  ∃ (stmt' : Statement) (bindVars' : gmap string BindVariable)
    (l' : SQLNode) (elems' : list SQLNode),
    Normalize stmt_in_partial ∅ "v" = Done (stmt', bindVars') ∧
    node_at [0; 0] stmt' = Some (ComparisonExpr "in" l' (ValTuple elems')) ∧
    length elems' = 3 ∧
    ∀ i typ val,
      [SQLVal IntVal "1"; SQLVal IntVal "2"; SQLVal (OtherVal 0) "0x1F"] !! i
        = Some (SQLVal typ val) →
      match sqlToBindvar (SQLVal typ val) with
      | Some bval =>
          ∃ name bval',
            elems' !! i = Some (SQLVal ValArg (":" +:+ name)) ∧
            bindVars' !! name = Some bval' ∧
            Value_ bval' = val ∧ Values bval' = [] ∧
            (Type_ bval' = VarBinary ↔ typ = StrVal)
      | None => elems' !! i = Some (SQLVal typ val)
      end.
Proof.
  assert (fits_int stmt_in_partial) as Hfit by (by apply fits_int_small).
  assert (∃ e, e ∈ [SQLVal IntVal "1"; SQLVal IntVal "2";
                    SQLVal (OtherVal 0) "0x1F"] ∧ sqlToBindvar e = None) as He.
  { exists (SQLVal (OtherVal 0) "0x1F"). split; [|reflexivity].
    do 2 (apply elem_of_cons; right). apply elem_of_cons. by left. }
  split; [reflexivity|]. split; [exact Hfit|]. split; [reflexivity|].
  split; [by left|].
  exact (Normalize_partial_tuple stmt_in_partial ∅ "v" [0; 0] "in"
           (OtherNode "x" [])
           [SQLVal IntVal "1"; SQLVal IntVal "2"; SQLVal (OtherVal 0) "0x1F"]
           eq_refl Hfit eq_refl (or_introl eq_refl) He).
Defined.

Example Normalize_in_partial_ex :
  Normalize stmt_in_partial ∅ "v" =
    Done (OtherNode "select"
            [OtherNode "where"
               [ComparisonExpr "in" (OtherNode "x" [])
                  (ValTuple [SQLVal ValArg ":v1"; SQLVal ValArg ":v2";
                             SQLVal (OtherVal 0) "0x1F"])]],
          {[ "v1" := mkBindVariable Int64 "1" [];
             "v2" := mkBindVariable Int64 "2" [] ]}).
Proof. by vm_compute. Qed.




Example Normalize_str_int_ex :
  Normalize stmt_str_int ∅ "v" =
    Done (OtherNode "select"
            [OtherNode "where"
               [OtherNode "and"
                  [ComparisonExpr "=" (OtherNode "a" []) (SQLVal ValArg ":v1");
                   ComparisonExpr "=" (OtherNode "b" []) (SQLVal ValArg ":v2")]]],
          {[ "v1" := mkBindVariable VarBinary "123" [];
             "v2" := mkBindVariable Int64 "123" [] ]}).
Proof. by vm_compute. Qed.

(** C3 as stated fails: an occurrence of the literal inside an IN tuple
    that is replaced by a list placeholder is not replaced by the scalar
    placeholder of the other occurrences. *)
Lemma Normalize_literal_in_list_not_deduped :
  ¬ (∀ (stmt stmt' : Statement) (bindVars bindVars' : gmap string BindVariable)
       (prefix : string) (p1 p2 : list nat) (typ : ValType) (val : string),
       node_at p1 stmt = Some (SQLVal typ val) →
       node_at p2 stmt = Some (SQLVal typ val) →
       is_Some (sqlToBindvar (SQLVal typ val)) →
       Normalize stmt bindVars prefix = Done (stmt', bindVars') →
       ∃ name, node_at p1 stmt' = Some (SQLVal ValArg (":" +:+ name)) ∧
               node_at p2 stmt' = Some (SQLVal ValArg (":" +:+ name))).
Proof.
  intros H.
  destruct (H stmt_eq_and_in
    (OtherNode "select"
       [OtherNode "where"
          [OtherNode "and"
             [ComparisonExpr "=" (OtherNode "a" []) (SQLVal ValArg ":v1");
              ComparisonExpr "in" (OtherNode "b" []) (ListArg "::v2")]]])
    ∅
    {[ "v1" := mkBindVariable Int64 "1" [];
       "v2" := mkBindVariable Type_TUPLE ""
                 [mkValue Int64 "1"; mkValue Int64 "2"] ]}
    "v" [0; 0; 0; 1] [0; 0; 1; 1; 0] IntVal "1") as (name & _ & Habs);
    try done; by vm_compute.
Qed.

(** C3, amended. The occurrences of a literal with a bind value that the
    walk visits (all but the elements of an IN or NOT IN tuple that is
    replaced by a list placeholder) are all replaced by the scalar
    placeholder of one name; exactly one assignment to the bind variables
    is made under that name, and it binds a value with the raw text of the
    literal (the bind value of the literal itself when it is a string). *)
Theorem Normalize_dedup (stmt : Statement)
    (bindVars : gmap string BindVariable) (prefix : string)
    (p1 p2 : list nat) (typ : ValType) (val : string) (bval : BindVariable) :
  well_formed stmt = true → fits_int stmt →
  node_at p1 stmt = Some (SQLVal typ val) → reached p1 stmt = true →
  node_at p2 stmt = Some (SQLVal typ val) → reached p2 stmt = true →
  sqlToBindvar (SQLVal typ val) = Some bval →
  ∃ (st : NormState) (stmt' : Statement) (name : string)
    (bval' : BindVariable),
    Normalize_walk stmt bindVars prefix = Done (st, [stmt'], None) ∧
    Normalize stmt bindVars prefix = Done (stmt', st_bindVars st) ∧
    node_at p1 stmt' = Some (SQLVal ValArg (":" +:+ name)) ∧
    node_at p2 stmt' = Some (SQLVal ValArg (":" +:+ name)) ∧
    filter (λ w, w.1 = name) (st_written st) = [(name, bval')] ∧
    st_bindVars st !! name = Some bval' ∧
    Value_ bval' = val ∧ Values bval' = [] ∧
    (Type_ bval' = VarBinary ↔ typ = StrVal) ∧
    (typ = StrVal → bval' = bval).
Proof.
  intros Hwf Hfit Hat1 Hr1 Hat2 Hr2 Hconv.
  pose proof (well_formed_not_truncated stmt Hwf) as Htr.
  destruct (Normalize_walk_spec stmt bindVars prefix Htr Hfit)
    as (st & stmt' & Hwalk & Hrun & Hinv & Hrw).
  destruct (rewritten_node_at _ _ _ _ _ _ Hrw Hr1 Hat1) as (m1 & Hat1' & Hm1).
  destruct (rewritten_node_at _ _ _ _ _ _ Hrw Hr2 Hat2) as (m2 & Hat2' & Hm2).
  destruct (rewritten_literal _ _ _ _ _ _ Hconv Hm1) as (name & Hkey & ->).
  destruct (rewritten_literal _ _ _ _ _ _ Hconv Hm2) as (name' & Hkey' & ->).
  rewrite Hkey in Hkey'. simplify_eq.
  destruct (literal_binding _ _ _ _ _ _ _ _ Hinv Hconv Hkey)
    as (bval' & Hw & Hb & Hv & Hvs & Ht & Heq).
  exists st, stmt', name', bval'.
  split_and!; try done.
  apply filter_written; [|done]. apply (inv_nodup _ _ _ _ Hinv).
Qed.

Lemma Normalize_dedup_witness :
  well_formed stmt_twice = true ∧ fits_int stmt_twice ∧
  node_at [0; 0; 0; 1] stmt_twice = Some (SQLVal IntVal "5") ∧
  reached [0; 0; 0; 1] stmt_twice = true ∧
  node_at [0; 0; 1; 1] stmt_twice = Some (SQLVal IntVal "5") ∧
  reached [0; 0; 1; 1] stmt_twice = true ∧
  sqlToBindvar (SQLVal IntVal "5") = Some (mkBindVariable Int64 "5" []) ∧
  ∃ (st : NormState) (stmt' : Statement) (name : string)
    (bval' : BindVariable),
    Normalize_walk stmt_twice ∅ "v" = Done (st, [stmt'], None) ∧
    Normalize stmt_twice ∅ "v" = Done (stmt', st_bindVars st) ∧
    node_at [0; 0; 0; 1] stmt' = Some (SQLVal ValArg (":" +:+ name)) ∧
    node_at [0; 0; 1; 1] stmt' = Some (SQLVal ValArg (":" +:+ name)) ∧
    filter (λ w, w.1 = name) (st_written st) = [(name, bval')] ∧
    st_bindVars st !! name = Some bval' ∧
    Value_ bval' = "5" ∧ Values bval' = [] ∧
    (Type_ bval' = VarBinary ↔ IntVal = StrVal) ∧
    (IntVal = StrVal → bval' = mkBindVariable Int64 "5" []).
Proof.
  assert (fits_int stmt_twice) as Hfit by (by apply fits_int_small).
  split; [reflexivity|]. split; [exact Hfit|].
  split; [reflexivity|]. split; [reflexivity|].
  split; [reflexivity|]. split; [reflexivity|]. split; [reflexivity|].
  exact (Normalize_dedup stmt_twice ∅ "v" [0; 0; 0; 1] [0; 0; 1; 1]
           IntVal "5" (mkBindVariable Int64 "5" [])
           eq_refl Hfit eq_refl eq_refl eq_refl eq_refl eq_refl).
Defined.

Example Normalize_twice_ex :
  Normalize stmt_twice ∅ "v" =
    Done (OtherNode "select"
            [OtherNode "where"
               [OtherNode "and"
                  [ComparisonExpr "=" (OtherNode "a" []) (SQLVal ValArg ":v1");
                   ComparisonExpr "=" (OtherNode "b" []) (SQLVal ValArg ":v1")]]],
          {[ "v1" := mkBindVariable Int64 "5" [] ]}).
Proof. by vm_compute. Qed.

Example Normalize_list_ex :
  Normalize
    (OtherNode "select"
       [OtherNode "where"
          [ComparisonExpr "in" (OtherNode "a" [])
             (ValTuple [SQLVal IntVal "1"; SQLVal IntVal "2";
                        SQLVal IntVal "3"])]]) ∅ "v" =
    Done (OtherNode "select"
            [OtherNode "where"
               [ComparisonExpr "in" (OtherNode "a" []) (ListArg "::v1")]],
          {[ "v1" := mkBindVariable Type_TUPLE ""
                       [mkValue Int64 "1"; mkValue Int64 "2";
                        mkValue Int64 "3"] ]}).
Proof. by vm_compute. Qed.

(** C4. Collision avoidance. No name that [Normalize] assigns (the names
    [newName] returned, which are the keys written to the bind variables)
    is the name of a placeholder, scalar or list, of the original
    statement, and the first name assigned is the prefix followed by the
    lowest positive integer whose name is not reserved. *)
Theorem Normalize_no_collision (stmt : Statement)
    (bindVars : gmap string BindVariable) (prefix : string) :
  well_formed stmt = true → fits_int stmt →
  ∃ (reserved : gset string) (st : NormState) (stmt' : Statement),
    GetBindvars stmt = Done reserved ∧
    (∀ name, name ∈ reserved ↔
       SQLVal ValArg (":" +:+ name) ∈ subnodes stmt
       ∨ ListArg ("::" +:+ name) ∈ subnodes stmt) ∧
    Normalize_walk stmt bindVars prefix = Done (st, [stmt'], None) ∧
    (∀ name, name ∈ (st_written st).*1 → name ∉ reserved) ∧
    (∀ first, last (st_written st).*1 = Some first →
       ∃ n, (1 ≤ n)%Z ∧ first = prefix +:+ pretty n ∧
            (first ∉ reserved) ∧
            ∀ m, (1 ≤ m < n)%Z → prefix +:+ pretty m ∈ reserved).
Proof.
  intros Hwf Hfit.
  pose proof (well_formed_not_truncated stmt Hwf) as Htr.
  destruct (Normalize_walk_spec stmt bindVars prefix Htr Hfit)
    as (st & stmt' & Hwalk & _ & Hinv & _).
  exists (bindvars_of (subnodes stmt)), st, stmt'.
  rewrite GetBindvars_spec, Htr.
  split_and!; [done| |done| |].
  - intros name. by apply well_formed_bindvars.
  - apply (inv_fresh _ _ _ _ Hinv).
  - intros first Hlast. rewrite fmap_last in Hlast.
    destruct (last (st_written st)) as [w|] eqn:Hw; [|done].
    simpl in Hlast. simplify_eq.
    destruct (inv_first _ _ _ _ Hinv w Hw) as (n & Hn & Heq & Hlow).
    exists n. split_and!; [done|done| |done].
    apply (inv_fresh _ _ _ _ Hinv), list_elem_of_fmap.
    exists w. split; [done|]. by apply last_Some_elem_of.
Qed.

Lemma Normalize_no_collision_witness :
  well_formed stmt_with_v1 = true ∧ fits_int stmt_with_v1 ∧
  ∃ (reserved : gset string) (st : NormState) (stmt' : Statement),
    GetBindvars stmt_with_v1 = Done reserved ∧
    (∀ name, name ∈ reserved ↔
       SQLVal ValArg (":" +:+ name) ∈ subnodes stmt_with_v1
       ∨ ListArg ("::" +:+ name) ∈ subnodes stmt_with_v1) ∧
    Normalize_walk stmt_with_v1 ∅ "v" = Done (st, [stmt'], None) ∧
    (∀ name, name ∈ (st_written st).*1 → name ∉ reserved) ∧
    (∀ first, last (st_written st).*1 = Some first →
       ∃ n, (1 ≤ n)%Z ∧ first = "v" +:+ pretty n ∧
            (first ∉ reserved) ∧
            ∀ m, (1 ≤ m < n)%Z → "v" +:+ pretty m ∈ reserved).
Proof.
  assert (fits_int stmt_with_v1) as Hfit by (by apply fits_int_small).
  split; [reflexivity|]. split; [exact Hfit|].
  exact (Normalize_no_collision stmt_with_v1 ∅ "v" eq_refl Hfit).
Defined.

Example Normalize_with_v1_ex :
  Normalize stmt_with_v1 ∅ "v" =
    Done (OtherNode "select"
            [OtherNode "where"
               [OtherNode "and"
                  [ComparisonExpr "=" (OtherNode "a" []) (SQLVal ValArg ":v1");
                   ComparisonExpr "=" (OtherNode "b" []) (SQLVal ValArg ":v2");
                   ComparisonExpr "in" (OtherNode "c" []) (ListArg "::v3");
                   ComparisonExpr "=" (OtherNode "d" []) (SQLVal ValArg ":v4")]]],
          {[ "v2" := mkBindVariable Int64 "5" [];
             "v4" := mkBindVariable VarBinary "x" [] ]}).
Proof. by vm_compute. Qed.

(** C5 as stated fails: an entry of the caller's map whose key is not the
    name of a placeholder of the statement is overwritten when a generated
    name is equal to its key. *)
Lemma Normalize_overwrites_unreferenced_key :
  ¬ (∀ (stmt stmt' : Statement) (bindVars bindVars' : gmap string BindVariable)
       (prefix key : string) (bval : BindVariable),
       Normalize stmt bindVars prefix = Done (stmt', bindVars') →
       bindVars !! key = Some bval → bindVars' !! key = Some bval).
Proof.
  intros H.
  specialize (H stmt_a_eq_5
    (OtherNode "select"
       [OtherNode "where"
          [ComparisonExpr "=" (OtherNode "a" []) (SQLVal ValArg ":v1")]])
    {[ "v1" := mkBindVariable VarBinary "old" [] ]}
    {[ "v1" := mkBindVariable Int64 "5" [] ]}
    "v" "v1" (mkBindVariable VarBinary "old" [])).
  assert (({[ "v1" := mkBindVariable Int64 "5" [] ]}
            : gmap string BindVariable) !! "v1"
          = Some (mkBindVariable VarBinary "old" [])) as Habs.
  { apply H; by vm_compute. }
  by vm_compute in Habs.
Qed.

(** C5, amended. [Normalize] only assigns to the bind variables: it removes
    no entry, it assigns each of its keys once, and its keys are names it
    generated (the prefix followed by a positive integer) that are not
    names of placeholders of the statement. So the entries of the caller
    whose key is the name of a placeholder of the statement, or is not of
    the form of a generated name, keep their value. *)
Theorem Normalize_inserts_only (stmt : Statement)
    (bindVars : gmap string BindVariable) (prefix : string) :
  well_formed stmt = true → fits_int stmt →
  ∃ (reserved : gset string) (st : NormState) (stmt' : Statement),
    GetBindvars stmt = Done reserved ∧
    Normalize_walk stmt bindVars prefix = Done (st, [stmt'], None) ∧
    Normalize stmt bindVars prefix = Done (stmt', st_bindVars st) ∧
    st_bindVars st = list_to_map (st_written st) ∪ bindVars ∧
    NoDup (st_written st).*1 ∧
    dom bindVars ⊆ dom (st_bindVars st) ∧
    (∀ key, key ∈ (st_written st).*1 →
       (key ∉ reserved) ∧ ∃ n, (1 ≤ n)%Z ∧ key = prefix +:+ pretty n) ∧
    (∀ key, key ∈ reserved → st_bindVars st !! key = bindVars !! key) ∧
    (∀ key, (∀ n, (1 ≤ n)%Z → key ≠ prefix +:+ pretty n) →
       st_bindVars st !! key = bindVars !! key).
Proof.
  intros Hwf Hfit.
  pose proof (well_formed_not_truncated stmt Hwf) as Htr.
  destruct (Normalize_walk_spec stmt bindVars prefix Htr Hfit)
    as (st & stmt' & Hwalk & Hrun & Hinv & _).
  exists (bindvars_of (subnodes stmt)), st, stmt'.
  rewrite GetBindvars_spec, Htr.
  assert (∀ key, key ∈ (st_written st).*1 →
            (key ∉ bindvars_of (subnodes stmt)) ∧
            ∃ n, (1 ≤ n)%Z ∧ key = prefix +:+ pretty n) as Hkeys.
  { intros key Hkey. split; [by apply (inv_fresh _ _ _ _ Hinv)|].
    destruct (inv_names _ _ _ _ Hinv key Hkey) as (n & Hn & ->).
    exists n. split; [lia|done]. }
  split_and!; try done.
  - apply (inv_bindVars _ _ _ _ Hinv).
  - apply (inv_nodup _ _ _ _ Hinv).
  - rewrite (inv_bindVars _ _ _ _ Hinv), dom_union. set_solver.
  - intros key Hkey. eapply unwritten_lookup; [done|].
    intros Hw. by destruct (Hkeys key Hw).
  - intros key Hform. eapply unwritten_lookup; [done|].
    intros Hw. destruct (Hkeys key Hw) as (_ & n & Hn & ->). by eapply Hform.
Qed.

Lemma Normalize_inserts_only_witness :
  well_formed stmt_with_v1 = true ∧ fits_int stmt_with_v1 ∧
  ∃ (reserved : gset string) (st : NormState) (stmt' : Statement),
    let bindVars : gmap string BindVariable :=
      {[ "v1" := mkBindVariable VarBinary "one" [] ]} in
    GetBindvars stmt_with_v1 = Done reserved ∧
    Normalize_walk stmt_with_v1 bindVars "v" = Done (st, [stmt'], None) ∧
    Normalize stmt_with_v1 bindVars "v" = Done (stmt', st_bindVars st) ∧
    st_bindVars st = list_to_map (st_written st) ∪ bindVars ∧
    NoDup (st_written st).*1 ∧
    dom bindVars ⊆ dom (st_bindVars st) ∧
    (∀ key, key ∈ (st_written st).*1 →
       (key ∉ reserved) ∧ ∃ n, (1 ≤ n)%Z ∧ key = "v" +:+ pretty n) ∧
    (∀ key, key ∈ reserved → st_bindVars st !! key = bindVars !! key) ∧
    (∀ key, (∀ n, (1 ≤ n)%Z → key ≠ "v" +:+ pretty n) →
       st_bindVars st !! key = bindVars !! key).
Proof.
  assert (fits_int stmt_with_v1) as Hfit by (by apply fits_int_small).
  split; [reflexivity|]. split; [exact Hfit|].
  exact (Normalize_inserts_only stmt_with_v1
           {[ "v1" := mkBindVariable VarBinary "one" [] ]} "v" eq_refl Hfit).
Defined.

(** C6. Typed-value conversion. [sqlToBindvar] gives, for a string literal,
    the value of type [VarBinary] with the raw bytes of the literal; for an
    integer literal, when the raw text parses as a decimal 64-bit signed
    integer, the value of type [Int64] that holds this text, and nothing
    when the parse fails; for a float literal, when the raw text parses as
    a float, the value of type [Float64] that holds this text, and nothing
    when the parse fails; nothing for a literal of any other kind and for
    every node that is not a literal. A result is always a complete scalar
    value of one of the three types, holding the raw text of the node. The
    decimal text of every 64-bit signed integer ([wrap_int z]) parses to
    that integer. The function has no state to change. *)
Theorem sqlToBindvar_conversion :
  (∀ val, sqlToBindvar (SQLVal StrVal val)
          = Some (mkBindVariable VarBinary val [])) ∧
  (∀ val, match ParseInt val with
          | Some z => is_int z ∧
                      sqlToBindvar (SQLVal IntVal val)
                      = Some (mkBindVariable Int64 val [])
          | None => sqlToBindvar (SQLVal IntVal val) = None
          end) ∧
  (∀ z, ParseInt (pretty (wrap_int z)) = Some (wrap_int z)) ∧
  (∀ val, sqlToBindvar (SQLVal FloatVal val)
          = if ParseFloat_ok val then Some (mkBindVariable Float64 val [])
            else None) ∧
  (∀ val, sqlToBindvar (SQLVal ValArg val) = None) ∧
  (∀ tag val, sqlToBindvar (SQLVal (OtherVal tag) val) = None) ∧
  (∀ val, sqlToBindvar (ListArg val) = None) ∧
  (∀ elems, sqlToBindvar (ValTuple elems) = None) ∧
  (∀ op l r, sqlToBindvar (ComparisonExpr op l r) = None) ∧
  (∀ kind subtrees, sqlToBindvar (OtherNode kind subtrees) = None) ∧
  (∀ node, match sqlToBindvar node with
           | Some bval =>
               (∃ typ, node = SQLVal typ (Value_ bval)) ∧
               Values bval = [] ∧
               (Type_ bval = VarBinary ∨ Type_ bval = Int64
                ∨ Type_ bval = Float64)
           | None => True
           end).
Proof.
  split_and!; try done.
  - intros val. unfold sqlToBindvar, NewValue.
    destruct (ParseInt val) as [z|] eqn:Hp; simpl; [|done].
    split; [|done]. unfold ParseInt in Hp.
    destruct (skip_sign val); [done|].
    destruct (parse_digits 0 _); [|done].
    by case_decide; simplify_eq.
  - intros z. apply ParseInt_pretty, wrap_int_is_int.
  - intros val. unfold sqlToBindvar, NewValue. by destruct (ParseFloat_ok val).
  - intros node. destruct (sqlToBindvar node) as [bval|] eqn:Hconv; [|done].
    destruct node as [typ val|val|elems|op l r|kind subtrees]; try done.
    apply sqlToBindvar_Some in Hconv as (<- & Hv & Ht).
    split_and!; [by exists typ|done|]. naive_solver.
Qed.

Example ParseInt_ex :
  ParseInt "5" = Some 5%Z ∧ ParseInt "-42" = Some (-42)%Z ∧
  ParseInt "9223372036854775807" = Some int_max ∧
  ParseInt "9223372036854775808" = None ∧
  ParseInt "" = None ∧ ParseInt "1.5" = None ∧ ParseInt "abc" = None.
Proof. by vm_compute. Qed.

Example ParseFloat_ok_ex :
  ParseFloat_ok "1.5" = true ∧ ParseFloat_ok "1e10" = true ∧
  ParseFloat_ok ".5" = true ∧ ParseFloat_ok "1" = true ∧
  ParseFloat_ok "" = false ∧ ParseFloat_ok "1e" = false ∧
  ParseFloat_ok "abc" = false.
Proof. by vm_compute. Qed.

(** C7. Scanner correctness. On a statement whose placeholders are encoded
    [:name] and [::name], [GetBindvars] returns exactly the names of the
    scalar and of the list placeholders anywhere in the tree, without their
    sigils, and its walk hands the statement back unchanged and without an
    error. *)
Theorem GetBindvars_scans (stmt : Statement) :
  well_formed stmt = true →
  ∃ names : gset string,
    GetBindvars stmt = Done names ∧
    GetBindvars_walk stmt = Done (names, [stmt], None) ∧
    ∀ name, name ∈ names ↔
      SQLVal ValArg (":" +:+ name) ∈ subnodes stmt
      ∨ ListArg ("::" +:+ name) ∈ subnodes stmt.
Proof.
  intros Hwf. exists (bindvars_of (subnodes stmt)).
  rewrite GetBindvars_spec, GetBindvars_walk_spec.
  rewrite (well_formed_not_truncated stmt Hwf).
  split_and!; [done..|]. intros name. by apply well_formed_bindvars.
Qed.

Lemma GetBindvars_scans_witness :
  well_formed stmt_v1_v2 = true ∧
  ∃ names : gset string,
    GetBindvars stmt_v1_v2 = Done names ∧
    GetBindvars_walk stmt_v1_v2 = Done (names, [stmt_v1_v2], None) ∧
    ∀ name, name ∈ names ↔
      SQLVal ValArg (":" +:+ name) ∈ subnodes stmt_v1_v2
      ∨ ListArg ("::" +:+ name) ∈ subnodes stmt_v1_v2.
Proof.
  split; [reflexivity|].
  exact (GetBindvars_scans stmt_v1_v2 eq_refl).
Defined.

Example GetBindvars_ex : GetBindvars stmt_v1_v2 = Done {[ "v1"; "v2" ]}.
Proof. by vm_compute. Qed.

(** C8. Fault propagation. The structural fault of a walk is the run-time
    panic of the pre-scan on a placeholder node too short to hold its
    sigil. When the walk of [GetBindvars] fails with it, [Normalize] fails
    with the same panic, so its caller observes an aborted call; when that
    walk returns, [Normalize] returns, and the error value of its own walk,
    which it discards, is [None]. The two cases are told apart by the
    outcome. *)
Theorem Normalize_propagates_fault (stmt : Statement)
    (bindVars : gmap string BindVariable) (prefix : string) :
  fits_int stmt →
  match GetBindvars_walk stmt with
  | Panic msg =>
      existsb truncated (subnodes stmt) = true ∧
      Normalize_walk stmt bindVars prefix = Panic msg ∧
      Normalize stmt bindVars prefix = Panic msg
  | Done _ =>
      existsb truncated (subnodes stmt) = false ∧
      ∃ st stmt',
        Normalize_walk stmt bindVars prefix = Done (st, [stmt'], None) ∧
        Normalize stmt bindVars prefix = Done (stmt', st_bindVars st)
  | Timeout => False
  end.
Proof.
  intros Hfit. rewrite GetBindvars_walk_spec.
  destruct (existsb truncated (subnodes stmt)) eqn:Htr.
  - unfold Normalize, Normalize_walk. rewrite GetBindvars_spec, Htr. done.
  - split; [done|].
    destruct (Normalize_walk_spec stmt bindVars prefix Htr Hfit)
      as (st & stmt' & Hwalk & Hrun & _).
    by exists st, stmt'.
Qed.

Lemma Normalize_propagates_fault_witness :
  fits_int stmt_truncated ∧
  match GetBindvars_walk stmt_truncated with
  | Panic msg =>
      existsb truncated (subnodes stmt_truncated) = true ∧
      Normalize_walk stmt_truncated ∅ "v" = Panic msg ∧
      Normalize stmt_truncated ∅ "v" = Panic msg
  | Done _ =>
      existsb truncated (subnodes stmt_truncated) = false ∧
      ∃ st stmt',
        Normalize_walk stmt_truncated ∅ "v" = Done (st, [stmt'], None) ∧
        Normalize stmt_truncated ∅ "v" = Done (stmt', st_bindVars st)
  | Timeout => False
  end.
Proof.
  assert (fits_int stmt_truncated) as Hfit by (by apply fits_int_small).
  split; [exact Hfit|].
  exact (Normalize_propagates_fault stmt_truncated ∅ "v" Hfit).
Defined.

Example Normalize_truncated_ex :
  GetBindvars_walk stmt_truncated = Panic slice_panic ∧
  Normalize stmt_truncated ∅ "v" = Panic slice_panic.
Proof. by vm_compute. Qed.

(** C9. Allocator termination. For every prefix, every starting counter (an
    [int]) and every reserved set (whose length is an [int]), [newName]
    terminates: the loop stops at the first of the counters [counter],
    [counter + 1], ... whose name [prefix ++ decimal] is not reserved, within
    one more turn than there are reserved names; it returns that name, the
    successful counter plus one (Go's [counter + 1]) and the reserved set
    with the name inserted. Any larger bound on the number of turns gives
    the same result. *)
Theorem newName_terminates (prefix : string) (counter : Z)
    (reserved : gset string) :
  is_int counter → (Z.of_nat (size reserved) ≤ int_max)%Z →
  ∃ (i : nat) (k : Z) (name : string),
    i ≤ size reserved ∧
    k = wrap_int (counter + Z.of_nat i) ∧
    name = prefix +:+ pretty k ∧
    (∀ j : nat, j < i →
       prefix +:+ pretty (wrap_int (counter + Z.of_nat j)) ∈ reserved) ∧
    (name ∉ reserved) ∧
    newName prefix counter reserved =
      Done (name, wrap_int (k + 1), {[ name ]} ∪ reserved) ∧
    (∀ fuel, i < fuel →
       newName_loop fuel prefix counter reserved =
         Done (name, wrap_int (k + 1), {[ name ]} ∪ reserved)) ∧
    ((k < int_max)%Z → wrap_int (k + 1) = (k + 1)%Z).
Proof.
  intros Hc Hsz.
  destruct (newName_loop_enough prefix counter reserved Hc Hsz)
    as (i & Hi & Hhit & Hmiss & Hrun).
  exists i, (probe counter i), (Sprintf_s_d prefix (probe counter i)).
  split_and!; try done.
  - by apply probe_wrap.
  - intros j Hj. rewrite <-probe_wrap by done. by apply Hhit.
  - apply Hrun. lia.
  - intros Hk. apply wrap_int_id.
    pose proof (wrap_int_is_int (counter + Z.of_nat i)) as Hint.
    rewrite <-probe_wrap in Hint by done.
    unfold is_int, int_min, int_max in *. lia.
Qed.

Lemma newName_terminates_witness :
  is_int 1 ∧ (Z.of_nat (size ({[ "v1"; "v3" ]} : gset string)) ≤ int_max)%Z ∧
  ∃ (i : nat) (k : Z) (name : string),
    i ≤ size ({[ "v1"; "v3" ]} : gset string) ∧
    k = wrap_int (1 + Z.of_nat i) ∧
    name = "v" +:+ pretty k ∧
    (∀ j : nat, j < i →
       "v" +:+ pretty (wrap_int (1 + Z.of_nat j)) ∈ ({[ "v1"; "v3" ]} : gset string)) ∧
    (name ∉ ({[ "v1"; "v3" ]} : gset string)) ∧
    newName "v" 1 {[ "v1"; "v3" ]} =
      Done (name, wrap_int (k + 1), {[ name ]} ∪ {[ "v1"; "v3" ]}) ∧
    (∀ fuel, i < fuel →
       newName_loop fuel "v" 1 {[ "v1"; "v3" ]} =
         Done (name, wrap_int (k + 1), {[ name ]} ∪ {[ "v1"; "v3" ]})) ∧
    ((k < int_max)%Z → wrap_int (k + 1) = (k + 1)%Z).
Proof.
  assert (is_int 1) as H1 by (unfold is_int, int_min, int_max; lia).
  assert (Z.of_nat (size ({[ "v1"; "v3" ]} : gset string)) ≤ int_max)%Z as H2
    by (vm_compute; discriminate).
  split; [exact H1|]. split; [exact H2|].
  exact (newName_terminates "v" 1 {[ "v1"; "v3" ]} H1 H2).
Defined.

Example newName_ex1 :
  newName "v" 1 {[ "v1"; "v3" ]} = Done ("v2", 3%Z, {[ "v2" ]} ∪ {[ "v1"; "v3" ]}).
Proof. by vm_compute. Qed.

Example newName_ex_wrap :
  newName "v" int_max ∅ =
    Done ("v9223372036854775807", int_min, {[ "v9223372036854775807" ]} ∪ ∅).
Proof. by vm_compute. Qed.



Example Normalize_round_trip_ex :
  Normalize stmt_round_trip ∅ "v" =
    Done (OtherNode "select"
            [OtherNode "where"
               [OtherNode "and"
                  [ComparisonExpr "=" (OtherNode "a" []) (SQLVal ValArg ":v1");
                   ComparisonExpr "=" (OtherNode "b" []) (SQLVal ValArg ":v2")]]],
          {[ "v1" := mkBindVariable Int64 "5" [];
             "v2" := mkBindVariable VarBinary "x" [] ]}).
Proof. by vm_compute. Qed.

(** * Further properties of the normalizer *)

(** ** Induction on rewritings *)

Lemma rewritten_ind_nested (V : gmap string string)
    (W : list (string * BindVariable)) (P : SQLNode → SQLNode → Prop) :
  (∀ typ val bval name,
     sqlToBindvar (SQLVal typ val) = Some bval →
     V !! dedup_key bval val = Some name →
     P (SQLVal typ val) (SQLVal ValArg (":" +:+ name))) →
  (∀ op l l' elems values name,
     list_values (ComparisonExpr op l (ValTuple elems)) = Some values →
     (name, mkBindVariable Type_TUPLE "" values) ∈ W →
     rewritten V W l l' → P l l' →
     P (ComparisonExpr op l (ValTuple elems))
       (ComparisonExpr op l' (ListArg ("::" +:+ name)))) →
  (∀ node cs,
     sqlToBindvar node = None → list_values node = None →
     Forall2 (rewritten V W) (children node) cs →
     Forall2 P (children node) cs →
     P node (with_children node cs)) →
  ∀ n n', rewritten V W n n' → P n n'.
Proof.
  intros Hlit Htup Hdesc. fix IH 3. intros n n' Hrw.
  destruct Hrw as [typ val bval name Hconv Hkey
                  |op l l' elems values name Hlist Hin Hl
                  |node cs Hconv Hlist Hcs].
  - by eapply Hlit.
  - eapply Htup; [done..|]. by apply IH.
  - apply Hdesc; [done..|].
    induction Hcs as [|c c' l l' Hc Hcs IHcs]; constructor; [|done].
    by apply IH.
Qed.

(** ** Statements the walk leaves alone *)

Lemma Normalize_visit_skip (prefix : string) (st : NormState) (node : SQLNode) :
  sqlToBindvar node = None → list_values node = None →
  Normalize_visit prefix st node = Done (st, node, (true, None)).
Proof.
  intros Hconv Hlist.
  destruct node as [typ val|val|elems|op l r|kind subtrees]; try done.
  - unfold Normalize_visit. by rewrite Hconv.
  - unfold Normalize_visit. simpl in Hlist.
    destruct r; try by case_decide.
    case_decide; [|done]. by rewrite Hlist.
Qed.

Lemma forallb_flat_map {A B : Type} (f : B → bool) (g : A → list B)
    (l : list A) :
  forallb f (flat_map g l) = true ↔ Forall (λ x, forallb f (g x) = true) l.
Proof.
  induction l as [|x l IH]; simpl.
  - split; [by constructor|done].
  - rewrite forallb_app, andb_true_iff, Forall_cons, IH. done.
Qed.

Lemma normalized_unfold (node : SQLNode) :
  normalized node = true ↔
  settled node = true ∧ Forall (λ c, normalized c = true) (children node).
Proof.
  unfold normalized. rewrite subnodes_unfold. simpl.
  by rewrite andb_true_iff, forallb_flat_map.
Qed.

Lemma settled_inv (node : SQLNode) :
  settled node = true → sqlToBindvar node = None ∧ list_values node = None.
Proof.
  unfold settled.
  by destruct (sqlToBindvar node), (list_values node).
Qed.

(** The walk of [Normalize] over nodes with nothing to normalize changes
    neither the nodes nor the variables. *)
Lemma Walk_normalized (prefix : string) (fuel : nat) (nodes : list SQLNode)
    (st : NormState) :
  Forall (λ n, depth n < fuel) nodes →
  Forall (λ n, normalized n = true) nodes →
  Walk fuel (Normalize_visit prefix) st nodes = Done (st, nodes, None).
Proof.
  revert nodes. induction fuel as [|fuel IH]; intros nodes Hd Hn.
  { destruct nodes as [|n nodes]; [done|].
    apply Forall_cons in Hd as [? _]. lia. }
  induction nodes as [|n nodes IHn]; [done|].
  apply Forall_cons in Hd as [Hdn Hd]. apply Forall_cons in Hn as [Hnn Hn].
  apply normalized_unfold in Hnn as [Hs Hcs].
  apply settled_inv in Hs as [Hconv Hlist].
  rewrite Walk_cons, Normalize_visit_skip by done. simpl.
  rewrite IH; [|apply Forall_forall; intros c Hc;
                 apply depth_children in Hc; lia|done].
  simpl. rewrite with_children_id, IHn by done. done.
Qed.

(** ** The statement after the walk has nothing left to normalize *)

Lemma rewritten_sqlToBindvar (V : gmap string string)
    (W : list (string * BindVariable)) (n n' : SQLNode) :
  rewritten V W n n' → sqlToBindvar n' = None.
Proof.
  destruct 1 as [| |node cs Hconv _ _]; [done..|].
  destruct node; try done. by destruct cs as [|? [|? [|? ?]]].
Qed.

Lemma rewritten_to_ValTuple (V : gmap string string)
    (W : list (string * BindVariable)) (n : SQLNode) (elems' : list SQLNode) :
  rewritten V W n (ValTuple elems') →
  ∃ elems, n = ValTuple elems ∧ Forall2 (rewritten V W) elems elems'.
Proof.
  inversion 1 as [| |node cs _ _ Hcs Heq]; subst.
  destruct n as [| |elems|op l r|]; simpl in *; simplify_eq.
  - by exists elems.
  - by destruct cs as [|? [|? [|? ?]]].
Qed.

Lemma rewritten_list_values (V : gmap string string)
    (W : list (string * BindVariable)) (n n' : SQLNode) :
  rewritten V W n n' → list_values n' = None.
Proof.
  destruct 1 as [| |node cs Hconv Hlist Hcs]; [done..|].
  destruct node as [typ val|val|elems|op l r|kind subtrees]; try done.
  simpl in Hcs.
  apply Forall2_cons_inv_l in Hcs as (l' & cs' & Hl & Hcs & ->).
  apply Forall2_cons_inv_l in Hcs as (r' & cs'' & Hr & Hnil & ->).
  apply Forall2_nil_inv_l in Hnil as ->. simpl.
  destruct r' as [| |elems'| |]; try done.
  case_decide as Hop; [|done].
  apply rewritten_to_ValTuple in Hr as (elems & -> & Helems).
  simpl in Hlist. rewrite decide_True in Hlist by done.
  apply tuple_values_None in Hlist as (e & He & Hnone).
  apply tuple_values_None.
  apply list_elem_of_lookup in He as [i Hi].
  destruct (Forall2_lookup_l _ _ _ _ _ Helems Hi) as (e' & Hi' & He').
  exists e'. split; [by eapply list_elem_of_lookup_2|].
  by eapply rewritten_sqlToBindvar.
Qed.

Lemma rewritten_settled (V : gmap string string)
    (W : list (string * BindVariable)) (n n' : SQLNode) :
  rewritten V W n n' → settled n' = true.
Proof.
  intros Hrw. unfold settled.
  by rewrite (rewritten_sqlToBindvar _ _ _ _ Hrw),
             (rewritten_list_values _ _ _ _ Hrw).
Qed.

Lemma rewritten_normalized (V : gmap string string)
    (W : list (string * BindVariable)) (n n' : SQLNode) :
  rewritten V W n n' → normalized n' = true.
Proof.
  induction 1 as [typ val bval name Hconv Hkey
                 |op l l' elems values name Hlist Hin Hl IHl
                 |node cs Hconv Hlist Hcs IHcs] using rewritten_ind_nested.
  - done.
  - apply normalized_unfold. split; [done|].
    simpl. repeat constructor; done.
  - apply normalized_unfold. split.
    + eapply rewritten_settled. by constructor.
    + rewrite children_with_children by (symmetry; by eapply Forall2_length).
      clear Hcs. induction IHcs; by constructor.
Qed.

(** The placeholders of the statement after the walk carry their sigil when
    those of the statement before did. *)
Lemma rewritten_well_formed (V : gmap string string)
    (W : list (string * BindVariable)) (n n' : SQLNode) :
  rewritten V W n n' → well_formed n = true → well_formed n' = true.
Proof.
  unfold well_formed.
  induction 1 as [typ val bval name Hconv Hkey
                 |op l l' elems values name Hlist Hin Hl IHl
                 |node cs Hconv Hlist Hcs IHcs] using rewritten_ind_nested.
  - done.
  - rewrite (subnodes_unfold (ComparisonExpr op l _)),
            (subnodes_unfold (ComparisonExpr op l' _)). simpl.
    rewrite !forallb_app, !andb_true_iff. intros (Hl0 & _). by rewrite IHl.
  - rewrite (subnodes_unfold node), (subnodes_unfold (with_children node cs)).
    rewrite children_with_children by (symmetry; by eapply Forall2_length).
    simpl. rewrite !andb_true_iff, !forallb_flat_map. intros [Hn Hch].
    split.
    { destruct node; try done. by destruct cs as [|? [|? [|? ?]]]. }
    clear Hcs. induction IHcs as [|c c' l l' Hc _ IH]; [by constructor|].
    apply Forall_cons in Hch as [Hc0 Hch]. constructor; auto.
Qed.

Lemma length_subnodes_pos (n : SQLNode) : 0 < length (subnodes n).
Proof. rewrite subnodes_unfold. simpl. lia. Qed.

Lemma Normalize_normalized (stmt : Statement)
    (bindVars : gmap string BindVariable) (prefix : string) :
  normalized stmt = true → existsb truncated (subnodes stmt) = false →
  Normalize stmt bindVars prefix = Done (stmt, bindVars).
Proof.
  intros Hn Htr. unfold Normalize, Normalize_walk.
  rewrite GetBindvars_spec, Htr. simpl.
  rewrite Walk_normalized; [done| |].
  - apply Forall_singleton. lia.
  - by apply Forall_singleton.
Qed.

(** X1. A statement with nothing to normalize, that is one without a
    literal that has a bind value and without an IN or NOT IN comparison
    whose tuple has only such literals, is left as it is by [Normalize],
    and so are the bind variables, whatever the prefix and whatever the
    bind variables hold. *)
Theorem Normalize_nothing_to_do (stmt : Statement)
    (bindVars : gmap string BindVariable) (prefix : string) :
  normalized stmt = true → well_formed stmt = true →
  Normalize stmt bindVars prefix = Done (stmt, bindVars).
Proof.
  intros Hn Hwf.
  apply Normalize_normalized; [done|by apply well_formed_not_truncated].
Qed.

Lemma Normalize_nothing_to_do_witness :
  normalized stmt_v1_v2 = true ∧ well_formed stmt_v1_v2 = true ∧
  Normalize stmt_v1_v2 {[ "v1" := mkBindVariable Int64 "7" [] ]} "v"
    = Done (stmt_v1_v2, {[ "v1" := mkBindVariable Int64 "7" [] ]}).
Proof.
  split; [reflexivity|]. split; [reflexivity|].
  exact (Normalize_nothing_to_do stmt_v1_v2
           {[ "v1" := mkBindVariable Int64 "7" [] ]} "v" eq_refl eq_refl).
Defined.

(** X2. [Normalize] is idempotent: the statement it returns has nothing
    left to normalize and its placeholders carry their sigil, so a second
    call, with any prefix, returns the same statement and the same bind
    variables. *)
Theorem Normalize_idempotent (stmt : Statement)
    (bindVars : gmap string BindVariable) (prefix prefix' : string) :
  well_formed stmt = true → fits_int stmt →
  ∃ (stmt' : Statement) (bindVars' : gmap string BindVariable),
    Normalize stmt bindVars prefix = Done (stmt', bindVars') ∧
    normalized stmt' = true ∧ well_formed stmt' = true ∧
    Normalize stmt' bindVars' prefix' = Done (stmt', bindVars').
Proof.
  intros Hwf Hfit.
  pose proof (well_formed_not_truncated stmt Hwf) as Htr.
  destruct (Normalize_walk_spec stmt bindVars prefix Htr Hfit)
    as (st & stmt' & _ & Hrun & _ & Hrw).
  pose proof (rewritten_normalized _ _ _ _ Hrw) as Hn.
  pose proof (rewritten_well_formed _ _ _ _ Hrw Hwf) as Hwf'.
  exists stmt', (st_bindVars st). split_and!; [done..|].
  apply Normalize_normalized; [done|by apply well_formed_not_truncated].
Qed.

Lemma Normalize_idempotent_witness :
  well_formed stmt_in_partial = true ∧ fits_int stmt_in_partial ∧
  ∃ (stmt' : Statement) (bindVars' : gmap string BindVariable),
    Normalize stmt_in_partial ∅ "v" = Done (stmt', bindVars') ∧
    normalized stmt' = true ∧ well_formed stmt' = true ∧
    Normalize stmt' bindVars' "w" = Done (stmt', bindVars').
Proof.
  assert (fits_int stmt_in_partial) as Hfit by (by apply fits_int_small).
  split; [reflexivity|]. split; [exact Hfit|].
  exact (Normalize_idempotent stmt_in_partial ∅ "v" "w" eq_refl Hfit).
Defined.

(** ** Tuples that become list bind variables *)

Lemma tuple_values_Some (tupleVals : list SQLNode) (acc values : list Value) :
  tuple_values tupleVals acc = Some values →
  ∃ vs, values = acc ++ vs ∧
        Forall2 (λ e v, ∃ bval, sqlToBindvar e = Some bval ∧
                                v = mkValue (Type_ bval) (Value_ bval))
          tupleVals vs.
Proof.
  revert acc. induction tupleVals as [|val rest IH]; intros acc Hsome; simpl in *.
  - simplify_eq. exists []. split; [by rewrite app_nil_r|constructor].
  - destruct (sqlToBindvar val) as [bval|] eqn:Hconv; [|done].
    destruct (IH _ Hsome) as (vs & -> & Hvs).
    exists (mkValue (Type_ bval) (Value_ bval) :: vs).
    split; [by rewrite <-(assoc_L (++))|]. constructor; [|done]. by exists bval.
Qed.

Lemma tuple_values_is_Some (tupleVals : list SQLNode) :
  (∀ e, e ∈ tupleVals → is_Some (sqlToBindvar e)) →
  is_Some (tuple_values tupleVals []).
Proof.
  intros Hall. destruct (tuple_values tupleVals []) eqn:Htv; [done|].
  apply tuple_values_None in Htv as (e & He & Hnone).
  destruct (Hall e He) as [bval Hb]. congruence.
Qed.

Lemma rewritten_list (V : gmap string string)
    (W : list (string * BindVariable)) (op : string) (l : SQLNode)
    (elems : list SQLNode) (values : list Value) (m' : SQLNode) :
  list_values (ComparisonExpr op l (ValTuple elems)) = Some values →
  rewritten V W (ComparisonExpr op l (ValTuple elems)) m' →
  ∃ l' name, m' = ComparisonExpr op l' (ListArg ("::" +:+ name)) ∧
             (name, mkBindVariable Type_TUPLE "" values) ∈ W ∧
             rewritten V W l l'.
Proof.
  intros Hsome Hrw.
  inversion Hrw as [|op' l0 l' elems0 values0 name Hsome' Hin Hl
                    |node cs _ Hnone _]; subst.
  - rewrite Hsome in Hsome'. simplify_eq. by exists l', name.
  - by rewrite Hsome in Hnone.
Qed.

(** X3. An IN or NOT IN comparison whose right operand is a tuple of
    literals that all have a bind value (an empty tuple too) gets its tuple
    replaced by a list placeholder [::name]. The name is bound, in the bind
    variables, to a value of type TUPLE that holds, in the order of the
    tuple, the type and the raw bytes of the bind value of each element, and
    it is not the name of a placeholder of the original statement. *)
Theorem Normalize_list_rewrite (stmt : Statement)
    (bindVars : gmap string BindVariable) (prefix : string)
    (path : list nat) (op : string) (l : SQLNode) (elems : list SQLNode) :
  well_formed stmt = true → fits_int stmt →
  node_at path stmt = Some (ComparisonExpr op l (ValTuple elems)) →
  op = InStr ∨ op = NotInStr →
  (∀ e, e ∈ elems → is_Some (sqlToBindvar e)) →
  ∃ (stmt' : Statement) (bindVars' : gmap string BindVariable)
    (l' : SQLNode) (name : string) (values : list Value),
    Normalize stmt bindVars prefix = Done (stmt', bindVars') ∧
    node_at path stmt'
      = Some (ComparisonExpr op l' (ListArg ("::" +:+ name))) ∧
    bindVars' !! name = Some (mkBindVariable Type_TUPLE "" values) ∧
    Forall2 (λ e v, ∃ bval, sqlToBindvar e = Some bval ∧
                            v = mkValue (Type_ bval) (Value_ bval))
      elems values ∧
    (SQLVal ValArg (":" +:+ name) ∉ subnodes stmt) ∧
    ListArg ("::" +:+ name) ∉ subnodes stmt.
Proof.
  intros Hwf Hfit Hat Hop Hall.
  pose proof (well_formed_not_truncated stmt Hwf) as Htr.
  destruct (Normalize_walk_spec stmt bindVars prefix Htr Hfit)
    as (st & stmt' & Hwalk & Hrun & Hinv & Hrw).
  assert (reached path stmt = true) as Hreach by (by eapply reached_inner).
  destruct (rewritten_node_at _ _ _ _ _ _ Hrw Hreach Hat) as (m' & Hat' & Hm).
  destruct (tuple_values_is_Some elems Hall) as [values Hvalues].
  assert (list_values (ComparisonExpr op l (ValTuple elems)) = Some values)
    as Hlist by (simpl; by rewrite decide_True).
  destruct (rewritten_list _ _ _ _ _ _ _ Hlist Hm) as (l' & name & -> & Hin & _).
  destruct (tuple_values_Some _ _ _ Hvalues) as (vs & -> & Hvs).
  assert (name ∉ bindvars_of (subnodes stmt)) as Hfresh.
  { apply (inv_fresh _ _ _ _ Hinv), list_elem_of_fmap. by eexists (_, _). }
  rewrite (well_formed_bindvars stmt name Hwf) in Hfresh.
  exists stmt', (st_bindVars st), l', name, vs.
  split_and!; [done|done|by eapply written_lookup|done|tauto|tauto].
Qed.

Lemma Normalize_list_rewrite_witness :
  well_formed stmt_not_in = true ∧ fits_int stmt_not_in ∧
  node_at [0; 0] stmt_not_in
    = Some (ComparisonExpr "not in" (OtherNode "a" [])
              (ValTuple [SQLVal IntVal "1"; SQLVal StrVal "b";
                         SQLVal FloatVal "2.5"])) ∧
  ("not in" = InStr ∨ "not in" = NotInStr) ∧
  (∀ e, e ∈ [SQLVal IntVal "1"; SQLVal StrVal "b"; SQLVal FloatVal "2.5"] →
        is_Some (sqlToBindvar e)) ∧
  ∃ (stmt' : Statement) (bindVars' : gmap string BindVariable)
    (l' : SQLNode) (name : string) (values : list Value),
    Normalize stmt_not_in ∅ "v" = Done (stmt', bindVars') ∧
    node_at [0; 0] stmt'
      = Some (ComparisonExpr "not in" l' (ListArg ("::" +:+ name))) ∧
    bindVars' !! name = Some (mkBindVariable Type_TUPLE "" values) ∧
    Forall2 (λ e v, ∃ bval, sqlToBindvar e = Some bval ∧
                            v = mkValue (Type_ bval) (Value_ bval))
      [SQLVal IntVal "1"; SQLVal StrVal "b"; SQLVal FloatVal "2.5"] values ∧
    (SQLVal ValArg (":" +:+ name) ∉ subnodes stmt_not_in) ∧
    ListArg ("::" +:+ name) ∉ subnodes stmt_not_in.
Proof.
  assert (fits_int stmt_not_in) as Hfit by (by apply fits_int_small).
  assert (∀ e, e ∈ [SQLVal IntVal "1"; SQLVal StrVal "b";
                    SQLVal FloatVal "2.5"] → is_Some (sqlToBindvar e)) as Hall.
  { intros e He. repeat (apply elem_of_cons in He as [->|He]; [by eexists|]).
    by apply not_elem_of_nil in He. }
  split; [reflexivity|]. split; [exact Hfit|]. split; [reflexivity|].
  split; [by right|]. split; [exact Hall|].
  exact (Normalize_list_rewrite stmt_not_in ∅ "v" [0; 0] "not in"
           (OtherNode "a" [])
           [SQLVal IntVal "1"; SQLVal StrVal "b"; SQLVal FloatVal "2.5"]
           eq_refl Hfit eq_refl (or_intror eq_refl) Hall).
Defined.

(** ** Literals with different text *)

(** X4. Two literals with different raw text are never given the same
    placeholder: when the walk visits both and both have a bind value, they
    are replaced by placeholders with different names, each bound to a
    value that holds the raw text of its literal. *)
Theorem Normalize_never_merges (stmt : Statement)
    (bindVars : gmap string BindVariable) (prefix : string)
    (p1 p2 : list nat) (typ1 typ2 : ValType) (val1 val2 : string) :
  well_formed stmt = true → fits_int stmt →
  node_at p1 stmt = Some (SQLVal typ1 val1) → reached p1 stmt = true →
  node_at p2 stmt = Some (SQLVal typ2 val2) → reached p2 stmt = true →
  is_Some (sqlToBindvar (SQLVal typ1 val1)) →
  is_Some (sqlToBindvar (SQLVal typ2 val2)) →
  val1 ≠ val2 →
  ∃ (stmt' : Statement) (bindVars' : gmap string BindVariable)
    (name1 name2 : string) (bval1 bval2 : BindVariable),
    Normalize stmt bindVars prefix = Done (stmt', bindVars') ∧
    node_at p1 stmt' = Some (SQLVal ValArg (":" +:+ name1)) ∧
    node_at p2 stmt' = Some (SQLVal ValArg (":" +:+ name2)) ∧
    name1 ≠ name2 ∧
    bindVars' !! name1 = Some bval1 ∧ Value_ bval1 = val1 ∧
    bindVars' !! name2 = Some bval2 ∧ Value_ bval2 = val2.
Proof.
  intros Hwf Hfit Hat1 Hr1 Hat2 Hr2 [b1 Hconv1] [b2 Hconv2] Hne.
  pose proof (well_formed_not_truncated stmt Hwf) as Htr.
  destruct (Normalize_walk_spec stmt bindVars prefix Htr Hfit)
    as (st & stmt' & Hwalk & Hrun & Hinv & Hrw).
  destruct (rewritten_node_at _ _ _ _ _ _ Hrw Hr1 Hat1) as (m1 & Hat1' & Hm1).
  destruct (rewritten_node_at _ _ _ _ _ _ Hrw Hr2 Hat2) as (m2 & Hat2' & Hm2).
  destruct (rewritten_literal _ _ _ _ _ _ Hconv1 Hm1) as (name1 & Hkey1 & ->).
  destruct (rewritten_literal _ _ _ _ _ _ Hconv2 Hm2) as (name2 & Hkey2 & ->).
  destruct (literal_binding _ _ _ _ _ _ _ _ Hinv Hconv1 Hkey1)
    as (bval1 & _ & Hb1 & Hv1 & _).
  destruct (literal_binding _ _ _ _ _ _ _ _ Hinv Hconv2 Hkey2)
    as (bval2 & _ & Hb2 & Hv2 & _).
  exists stmt', (st_bindVars st), name1, name2, bval1, bval2.
  split_and!; try done.
  intros <-.
  pose proof (inv_vals_inj _ _ _ _ Hinv _ _ _ Hkey1 Hkey2) as Hkey.
  by destruct (dedup_key_inj _ _ _ _ _ _ Hconv1 Hconv2 Hkey) as [? _].
Qed.

Lemma Normalize_never_merges_witness :
  well_formed stmt_round_trip = true ∧ fits_int stmt_round_trip ∧
  node_at [0; 0; 0; 1] stmt_round_trip = Some (SQLVal IntVal "5") ∧
  reached [0; 0; 0; 1] stmt_round_trip = true ∧
  node_at [0; 0; 1; 1] stmt_round_trip = Some (SQLVal StrVal "x") ∧
  reached [0; 0; 1; 1] stmt_round_trip = true ∧
  is_Some (sqlToBindvar (SQLVal IntVal "5")) ∧
  is_Some (sqlToBindvar (SQLVal StrVal "x")) ∧
  "5" ≠ "x" ∧
  ∃ (stmt' : Statement) (bindVars' : gmap string BindVariable)
    (name1 name2 : string) (bval1 bval2 : BindVariable),
    Normalize stmt_round_trip ∅ "v" = Done (stmt', bindVars') ∧
    node_at [0; 0; 0; 1] stmt' = Some (SQLVal ValArg (":" +:+ name1)) ∧
    node_at [0; 0; 1; 1] stmt' = Some (SQLVal ValArg (":" +:+ name2)) ∧
    name1 ≠ name2 ∧
    bindVars' !! name1 = Some bval1 ∧ Value_ bval1 = "5" ∧
    bindVars' !! name2 = Some bval2 ∧ Value_ bval2 = "x".
Proof.
  assert (fits_int stmt_round_trip) as Hfit by (by apply fits_int_small).
  assert (is_Some (sqlToBindvar (SQLVal IntVal "5"))) as H1 by (by eexists).
  assert (is_Some (sqlToBindvar (SQLVal StrVal "x"))) as H2 by (by eexists).
  assert ("5" ≠ "x") as Hne by discriminate.
  split; [reflexivity|]. split; [exact Hfit|].
  split; [reflexivity|]. split; [reflexivity|].
  split; [reflexivity|]. split; [reflexivity|].
  split; [exact H1|]. split; [exact H2|]. split; [exact Hne|].
  exact (Normalize_never_merges stmt_round_trip ∅ "v"
           [0; 0; 0; 1] [0; 0; 1; 1] IntVal StrVal "5" "x"
           eq_refl Hfit eq_refl eq_refl eq_refl eq_refl H1 H2 Hne).
Defined.

(** ** What the walk does not touch *)

Lemma tuple_values_elem (tupleVals : list SQLNode) (acc values : list Value)
    (e : SQLNode) :
  tuple_values tupleVals acc = Some values → e ∈ tupleVals →
  is_Some (sqlToBindvar e).
Proof.
  revert acc. induction tupleVals as [|val rest IH]; intros acc Hsome He.
  { by apply not_elem_of_nil in He. }
  simpl in Hsome. destruct (sqlToBindvar val) as [bval|] eqn:Hconv; [|done].
  apply elem_of_cons in He as [->|He]; [by eexists|by eapply IH].
Qed.

(** Every position that holds a node without a bind value, other than a
    tuple, is visited. *)
Lemma reached_unconverted (path : list nat) (node m : SQLNode) :
  node_at path node = Some m →
  sqlToBindvar m = None → (∀ elems, m ≠ ValTuple elems) →
  reached path node = true.
Proof.
  intros Hat Hnone Htup. revert node Hat.
  induction path as [|i path IH]; intros node Hat; [done|].
  simpl in *. destruct (children node !! i) as [c|] eqn:Hc; [|done].
  destruct (list_values node) as [values|] eqn:Hlist; [|by apply IH].
  destruct node as [| | |op l r|]; try done.
  destruct r as [| |elems| |]; try done. simpl in Hlist.
  case_decide; [|done].
  destruct i as [|[|i]]; simpl in Hc; simplify_eq.
  - simpl. by apply IH.
  - exfalso. destruct path as [|j path]; simpl in Hat; simplify_eq.
    { by eapply Htup. }
    destruct (elems !! j) as [e|] eqn:He; [|done].
    apply list_elem_of_lookup_2 in He.
    destruct (tuple_values_elem _ _ _ _ Hlist He) as [bval Hb].
    destruct (tuple_values_literals _ _ _ _ Hlist He) as (typ & val & ->).
    destruct path as [|k path]; simpl in Hat; simplify_eq.
Qed.

(** X5. [Normalize] leaves in place, unchanged, every leaf of the
    statement that has no bind value: every scalar placeholder, every list
    placeholder, every literal without a bind value (a literal of a kind
    other than string, integer and float, and an integer or float literal
    whose text does not parse) and every other node without children (a
    tuple apart), wherever it is in the statement. *)
Theorem Normalize_keeps_unconverted (stmt : Statement)
    (bindVars : gmap string BindVariable) (prefix : string)
    (path : list nat) (m : SQLNode) :
  well_formed stmt = true → fits_int stmt →
  node_at path stmt = Some m →
  children m = [] → (∀ elems, m ≠ ValTuple elems) →
  sqlToBindvar m = None →
  ∃ (stmt' : Statement) (bindVars' : gmap string BindVariable),
    Normalize stmt bindVars prefix = Done (stmt', bindVars') ∧
    node_at path stmt' = Some m.
Proof.
  intros Hwf Hfit Hat Hleaf Htup Hnone.
  pose proof (well_formed_not_truncated stmt Hwf) as Htr.
  destruct (Normalize_walk_spec stmt bindVars prefix Htr Hfit)
    as (st & stmt' & Hwalk & Hrun & Hinv & Hrw).
  assert (reached path stmt = true) as Hreach
    by (by eapply reached_unconverted).
  destruct (rewritten_node_at _ _ _ _ _ _ Hrw Hreach Hat) as (m' & Hat' & Hm).
  exists stmt', (st_bindVars st). split; [done|].
  destruct m as [typ val|val|elems|op l r|kind subtrees]; try done.
  - by rewrite (rewritten_skipped_literal _ _ _ _ _ Hnone Hm) in Hat'.
  - by rewrite (rewritten_ListArg _ _ _ _ Hm) in Hat'.
  - by destruct (Htup elems).
  - simpl in Hleaf. subst.
    inversion Hm as [| |node cs _ _ Hcs]; subst. simpl in Hcs.
    by apply Forall2_nil_inv_l in Hcs as ->.
Qed.

Lemma Normalize_keeps_unconverted_witness :
  well_formed stmt_unconverted = true ∧ fits_int stmt_unconverted ∧
  node_at [0; 0; 0; 1] stmt_unconverted
    = Some (SQLVal IntVal "99999999999999999999") ∧
  children (SQLVal IntVal "99999999999999999999") = [] ∧
  (∀ elems, SQLVal IntVal "99999999999999999999" ≠ ValTuple elems) ∧
  sqlToBindvar (SQLVal IntVal "99999999999999999999") = None ∧
  ∃ (stmt' : Statement) (bindVars' : gmap string BindVariable),
    Normalize stmt_unconverted ∅ "v" = Done (stmt', bindVars') ∧
    node_at [0; 0; 0; 1] stmt'
      = Some (SQLVal IntVal "99999999999999999999").
Proof.
  assert (fits_int stmt_unconverted) as Hfit by (by apply fits_int_small).
  assert (∀ elems, SQLVal IntVal "99999999999999999999" ≠ ValTuple elems)
    as Htup by discriminate.
  split; [reflexivity|]. split; [exact Hfit|]. split; [reflexivity|].
  split; [reflexivity|]. split; [exact Htup|]. split; [reflexivity|].
  exact (Normalize_keeps_unconverted stmt_unconverted ∅ "v" [0; 0; 0; 1]
           (SQLVal IntVal "99999999999999999999")
           eq_refl Hfit eq_refl eq_refl Htup eq_refl).
Defined.

(** X6. [Normalize] keeps the structure of the statement: at every position
    the walk visits, a node that has no bind value and is not a comparison
    whose tuple becomes a list keeps its variant, its tag or operator and
    its number of children; only its children are rewritten. In particular
    a tuple on the right of an operator other than IN and NOT IN stays a
    tuple. *)
Theorem Normalize_keeps_structure (stmt : Statement)
    (bindVars : gmap string BindVariable) (prefix : string)
    (path : list nat) (m : SQLNode) :
  well_formed stmt = true → fits_int stmt →
  node_at path stmt = Some m → reached path stmt = true →
  sqlToBindvar m = None → list_values m = None →
  ∃ (stmt' : Statement) (bindVars' : gmap string BindVariable)
    (cs' : list SQLNode),
    Normalize stmt bindVars prefix = Done (stmt', bindVars') ∧
    node_at path stmt' = Some (with_children m cs') ∧
    length cs' = length (children m) ∧
    children (with_children m cs') = cs'.
Proof.
  intros Hwf Hfit Hat Hreach Hnone Hlist.
  pose proof (well_formed_not_truncated stmt Hwf) as Htr.
  destruct (Normalize_walk_spec stmt bindVars prefix Htr Hfit)
    as (st & stmt' & Hwalk & Hrun & Hinv & Hrw).
  destruct (rewritten_node_at _ _ _ _ _ _ Hrw Hreach Hat) as (m' & Hat' & Hm).
  inversion Hm as [typ val bval name Hconv _
                  |op l l' elems values name Hsome _ _
                  |node cs _ _ Hcs]; subst.
  - by rewrite Hnone in Hconv.
  - by rewrite Hlist in Hsome.
  - assert (length cs = length (children m)) as Hlen
      by (symmetry; by eapply Forall2_length).
    exists stmt', (st_bindVars st), cs.
    split_and!; [done..|]. by apply children_with_children.
Qed.

Lemma Normalize_keeps_structure_witness :
  well_formed stmt_eq_tuple = true ∧ fits_int stmt_eq_tuple ∧
  node_at [0; 0; 1] stmt_eq_tuple
    = Some (ValTuple [SQLVal IntVal "1"; SQLVal IntVal "2"]) ∧
  reached [0; 0; 1] stmt_eq_tuple = true ∧
  sqlToBindvar (ValTuple [SQLVal IntVal "1"; SQLVal IntVal "2"]) = None ∧
  list_values (ValTuple [SQLVal IntVal "1"; SQLVal IntVal "2"]) = None ∧
  ∃ (stmt' : Statement) (bindVars' : gmap string BindVariable)
    (cs' : list SQLNode),
    Normalize stmt_eq_tuple ∅ "v" = Done (stmt', bindVars') ∧
    node_at [0; 0; 1] stmt' = Some (ValTuple cs') ∧
    length cs' = 2 ∧
    children (ValTuple cs') = cs'.
Proof.
  assert (fits_int stmt_eq_tuple) as Hfit by (by apply fits_int_small).
  split; [reflexivity|]. split; [exact Hfit|]. split; [reflexivity|].
  split; [reflexivity|]. split; [reflexivity|]. split; [reflexivity|].
  exact (Normalize_keeps_structure stmt_eq_tuple ∅ "v" [0; 0; 1]
           (ValTuple [SQLVal IntVal "1"; SQLVal IntVal "2"])
           eq_refl Hfit eq_refl eq_refl eq_refl eq_refl).
Defined.

(** ** Two calls of newName *)

(** X7. Two calls of [newName] in a row, the second on the counter and the
    reserved set that the first one left, both return, and they return
    different names, neither of which was reserved before the first call;
    the reserved set grows by exactly these two names. *)
Theorem newName_twice (prefix : string) (counter : Z)
    (reserved : gset string) :
  is_int counter → (Z.of_nat (size reserved) < int_max)%Z →
  ∃ (name1 name2 : string) (counter1 counter2 : Z),
    newName prefix counter reserved
      = Done (name1, counter1, {[ name1 ]} ∪ reserved) ∧
    newName prefix counter1 ({[ name1 ]} ∪ reserved)
      = Done (name2, counter2, {[ name2 ]} ∪ ({[ name1 ]} ∪ reserved)) ∧
    name1 ≠ name2 ∧ (name1 ∉ reserved) ∧ (name2 ∉ reserved) ∧
    size ({[ name2 ]} ∪ ({[ name1 ]} ∪ reserved) : gset string)
      = S (S (size reserved)).
Proof.
  intros Hc Hsz.
  destruct (newName_loop_enough prefix counter reserved Hc)
    as (i & Hi & _ & Hmiss1 & Hrun1); [lia|].
  set (name1 := Sprintf_s_d prefix (probe counter i)) in *.
  set (counter1 := wrap_int (probe counter i + 1)).
  assert (size ({[ name1 ]} ∪ reserved) = S (size reserved)) as Hsize1.
  { rewrite size_union, size_singleton by set_solver. done. }
  destruct (newName_loop_enough prefix counter1 ({[ name1 ]} ∪ reserved))
    as (j & Hj & _ & Hmiss2 & Hrun2);
    [apply wrap_int_is_int|rewrite Hsize1; lia|].
  set (name2 := Sprintf_s_d prefix (probe counter1 j)) in *.
  exists name1, name2, counter1, (wrap_int (probe counter1 j + 1)).
  split_and!.
  - unfold newName. apply Hrun1. lia.
  - unfold newName. apply Hrun2. lia.
  - intros Heq. apply Hmiss2. rewrite <-Heq. set_solver.
  - done.
  - set_solver.
  - rewrite size_union, size_singleton, Hsize1 by set_solver. done.
Qed.

Lemma newName_twice_witness :
  is_int 1 ∧ (Z.of_nat (size ({[ "v1"; "v3" ]} : gset string)) < int_max)%Z ∧
  ∃ (name1 name2 : string) (counter1 counter2 : Z),
    newName "v" 1 {[ "v1"; "v3" ]}
      = Done (name1, counter1, {[ name1 ]} ∪ {[ "v1"; "v3" ]}) ∧
    newName "v" counter1 ({[ name1 ]} ∪ {[ "v1"; "v3" ]})
      = Done (name2, counter2,
              {[ name2 ]} ∪ ({[ name1 ]} ∪ {[ "v1"; "v3" ]})) ∧
    name1 ≠ name2 ∧ (name1 ∉ ({[ "v1"; "v3" ]} : gset string)) ∧
    (name2 ∉ ({[ "v1"; "v3" ]} : gset string)) ∧
    size ({[ name2 ]} ∪ ({[ name1 ]} ∪ {[ "v1"; "v3" ]}) : gset string)
      = S (S (size ({[ "v1"; "v3" ]} : gset string))).
Proof.
  assert (is_int 1) as H1 by (unfold is_int, int_min, int_max; lia).
  assert (Z.of_nat (size ({[ "v1"; "v3" ]} : gset string)) < int_max)%Z as H2
    by (by vm_compute).
  split; [exact H1|]. split; [exact H2|].
  exact (newName_twice "v" 1 {[ "v1"; "v3" ]} H1 H2).
Defined.

(** ** Inversion of walks *)

Lemma Walk_cons_inv {S : Type} (visit : Visit S) (fuel : nat) (st st' : S)
    (node : SQLNode) (rest nodes' : list SQLNode) (err : option error) :
  (∀ st n st1 n1 r, visit st n = Done (st1, n1, r) → r = (true, None)) →
  Walk (Datatypes.S fuel) visit st (node :: rest) = Done (st', nodes', err) →
  ∃ st1 node1 st2 cs e2,
    visit st node = Done (st1, node1, (true, None)) ∧
    Walk fuel visit st1 (children node1) = Done (st2, cs, e2) ∧
    match e2 with
    | Some e => st' = st2 ∧ nodes' = with_children node1 cs :: rest ∧
                err = Some e
    | None => ∃ rest',
        Walk (Datatypes.S fuel) visit st2 rest = Done (st', rest', err) ∧
        nodes' = with_children node1 cs :: rest'
    end.
Proof.
  intros Hvisit. rewrite Walk_cons.
  destruct (visit st node) as [[[st1 node1] r]|msg|] eqn:Hv; simpl; [|done..].
  pose proof (Hvisit _ _ _ _ _ Hv) as ->. simpl.
  destruct (Walk fuel visit st1 (children node1)) as [[[st2 cs] e2]|msg|] eqn:Hsub;
    simpl; [|done..].
  intros Hrun. exists st1, node1, st2, cs, e2. split_and!; [done..|].
  destruct e2 as [e|]; [by simplify_eq|].
  destruct (Walk (Datatypes.S fuel) visit st2 rest) as [[[st3 rest'] e3]|msg|];
    simpl in Hrun; [|done..].
  simplify_eq. by exists rest'.
Qed.

(** A walk whose visitor always continues without an error ends without an
    error, with as many nodes as it started from. *)
Lemma Walk_no_error {S : Type} (visit : Visit S) (fuel : nat) (st st' : S)
    (nodes nodes' : list SQLNode) (err : option error) :
  (∀ st n st1 n1 r, visit st n = Done (st1, n1, r) → r = (true, None)) →
  Walk fuel visit st nodes = Done (st', nodes', err) →
  err = None ∧ length nodes' = length nodes.
Proof.
  intros Hvisit. revert st st' nodes nodes' err.
  induction fuel as [|fuel IH]; intros st st' nodes nodes' err Hrun.
  { destruct nodes; [|done]. rewrite Walk_nil in Hrun. by simplify_eq. }
  induction nodes as [|n nodes IHn] in st, st', nodes', err, Hrun |- *.
  { rewrite Walk_nil in Hrun. by simplify_eq. }
  apply Walk_cons_inv in Hrun as (st1 & n1 & st2 & cs & e2 & Hv & Hsub & Hrest);
    [|done].
  destruct (IH _ _ _ _ _ Hsub) as [-> _].
  destruct Hrest as (rest' & Hrest & ->).
  destruct (IHn _ _ _ _ Hrest) as [-> Hlen]. split; [done|]. simpl. by rewrite Hlen.
Qed.

Lemma Normalize_visit_result (prefix : string) (st : NormState)
    (n : SQLNode) (st1 : NormState) (n1 : SQLNode)
    (r : bool * option error) :
  Normalize_visit prefix st n = Done (st1, n1, r) → r = (true, None).
Proof.
  unfold Normalize_visit. intros H.
  repeat (case_match; simplify_eq/=); try done;
    destruct (newName _ _ _) as [[[? ?] ?]|?|]; by simplify_eq/=.
Qed.

Lemma Walk_Normalize_cons_inv (prefix : string) (fuel : nat)
    (st st' : NormState) (node : SQLNode) (rest nodes' : list SQLNode)
    (err : option error) :
  Walk (S fuel) (Normalize_visit prefix) st (node :: rest)
    = Done (st', nodes', err) →
  ∃ st1 node1 st2 cs rest',
    Normalize_visit prefix st node = Done (st1, node1, (true, None)) ∧
    Walk fuel (Normalize_visit prefix) st1 (children node1)
      = Done (st2, cs, None) ∧
    length cs = length (children node1) ∧
    Walk (S fuel) (Normalize_visit prefix) st2 rest = Done (st', rest', None) ∧
    nodes' = with_children node1 cs :: rest' ∧ err = None.
Proof.
  intros Hrun.
  apply Walk_cons_inv in Hrun as (st1 & n1 & st2 & cs & e2 & Hv & Hsub & Hrest);
    [|apply Normalize_visit_result].
  destruct (Walk_no_error _ _ _ _ _ _ _
              (Normalize_visit_result prefix) Hsub) as [-> Hlen].
  destruct Hrest as (rest' & Hrest & ->).
  destruct (Walk_no_error _ _ _ _ _ _ _
              (Normalize_visit_result prefix) Hrest) as [-> _].
  by exists st1, n1, st2, cs, rest'.
Qed.

(** ** The placeholders of the statement after the walk *)

Lemma Normalize_visit_Done (prefix : string) (st st1 : NormState)
    (node node1 : SQLNode) (r : bool * option error) :
  Normalize_visit prefix st node = Done (st1, node1, r) →
  (st1 = st ∧ node1 = node)
  ∨ (∃ typ val name,
       node = SQLVal typ val ∧ is_Some (sqlToBindvar node) ∧
       node1 = SQLVal ValArg (":" +:+ name) ∧
       (st_written st1 = st_written st
        ∨ ∃ b, Type_ b ≠ Type_TUPLE ∧
               st_written st1 = (name, b) :: st_written st))
  ∨ (∃ op l elems name b,
       node = ComparisonExpr op l (ValTuple elems) ∧
       is_Some (tuple_values elems []) ∧
       node1 = ComparisonExpr op l (ListArg ("::" +:+ name)) ∧
       Type_ b = Type_TUPLE ∧
       st_written st1 = (name, b) :: st_written st).
Proof.
  intros Hv.
  destruct node as [typ val|val|elems|op l r0|kind subtrees];
    try (left; simpl in Hv; by simplify_eq).
  - unfold Normalize_visit in Hv.
    destruct (sqlToBindvar (SQLVal typ val)) as [bval|] eqn:Hconv;
      [|left; by simplify_eq].
    right; left. exists typ, val.
    destruct (st_vals st !! dedup_key bval val) as [name|].
    + simplify_eq. exists name. split_and!; [done|by eexists|done|by left].
    + destruct (newName _ _ _) as [[[name c] R]|?|]; simplify_eq/=.
      exists name. split_and!; [done|by eexists|done|].
      right. exists bval. split; [|done].
      apply sqlToBindvar_Some in Hconv as (_ & _ & Ht).
      intros Heq. rewrite Heq in Ht. naive_solver.
  - unfold Normalize_visit in Hv.
    case_decide; [|left; by simplify_eq].
    destruct r0 as [| |elems| |]; try (left; by simplify_eq).
    destruct (tuple_values elems []) as [values|] eqn:Htv;
      [|left; by simplify_eq].
    destruct (newName _ _ _) as [[[name c] R]|?|]; simplify_eq/=.
    right; right.
    exists op, l, elems, name, (mkBindVariable Type_TUPLE "" values).
    split_and!; [done|by eexists|done..].
Qed.

Lemma listarg_names_cons (n : SQLNode) (l : list SQLNode) :
  listarg_names (n :: l) = listarg_names [n] ++ listarg_names l.
Proof. apply (omap_app listarg_name [n] l). Qed.

Lemma bindvars_of_app (l1 l2 : list SQLNode) :
  bindvars_of (l1 ++ l2) = bindvars_of l1 ∪ bindvars_of l2.
Proof. unfold bindvars_of. by rewrite omap_app, list_to_set_app_L. Qed.

Lemma bindvars_of_cons (n : SQLNode) (l : list SQLNode) :
  bindvars_of (n :: l) = bindvars_of [n] ∪ bindvars_of l.
Proof. apply (bindvars_of_app [n] l). Qed.

Lemma with_children_names (n : SQLNode) (cs : list SQLNode) :
  listarg_names [with_children n cs] = listarg_names [n] ∧
  bindvars_of [with_children n cs] = bindvars_of [n].
Proof.
  destruct n as [typ val|val|elems|op l r|kind subtrees]; try done.
  by destruct cs as [|? [|? [|? ?]]].
Qed.

Lemma literal_no_placeholder (n : SQLNode) :
  is_Some (sqlToBindvar n) →
  subnodes n = [n] ∧ listarg_names [n] = [] ∧ bindvars_of [n] = ∅.
Proof.
  intros [bval Hb].
  destruct n as [typ val|val|elems|op l r|kind subtrees]; try done.
  by destruct typ.
Qed.

Lemma literals_no_placeholders (tupleVals : list SQLNode) :
  (∀ e, e ∈ tupleVals → is_Some (sqlToBindvar e)) →
  listarg_names (flat_map subnodes tupleVals) = [] ∧
  bindvars_of (flat_map subnodes tupleVals) = ∅.
Proof.
  induction tupleVals as [|e rest IH]; intros Hall; [done|].
  destruct (literal_no_placeholder e) as (Hsub & Hl & Hb).
  { apply Hall. by apply elem_of_cons; left. }
  destruct IH as [IHl IHb].
  { intros e' He'. apply Hall. by apply elem_of_cons; right. }
  simpl flat_map. rewrite Hsub.
  change ([e] ++ flat_map subnodes rest) with (e :: flat_map subnodes rest).
  rewrite listarg_names_cons, bindvars_of_cons, Hl, IHl, Hb, IHb.
  split; [done|set_solver].
Qed.

Lemma listarg_names_app (l1 l2 : list SQLNode) :
  listarg_names (l1 ++ l2) = listarg_names l1 ++ listarg_names l2.
Proof. apply omap_app. Qed.

Lemma names_flat_cons (n : SQLNode) (l : list SQLNode) :
  listarg_names (flat_map subnodes (n :: l))
    = listarg_names [n] ++ listarg_names (flat_map subnodes (children n))
      ++ listarg_names (flat_map subnodes l) ∧
  bindvars_of (flat_map subnodes (n :: l))
    = bindvars_of [n] ∪ bindvars_of (flat_map subnodes (children n))
      ∪ bindvars_of (flat_map subnodes l).
Proof.
  simpl flat_map. rewrite subnodes_unfold.
  rewrite listarg_names_app, bindvars_of_app.
  rewrite listarg_names_cons, bindvars_of_cons.
  by rewrite <-(assoc_L (++)).
Qed.

(** The walk of [Normalize] keeps the placeholders it finds, puts every
    name it assigns into a placeholder, and adds one list placeholder for
    each list bind variable it writes. *)
Lemma Walk_Normalize_placeholders (prefix : string) (fuel : nat) :
  ∀ (nodes : list SQLNode) (st st' : NormState) (nodes' : list SQLNode)
    (err : option error),
    Walk fuel (Normalize_visit prefix) st nodes = Done (st', nodes', err) →
    ∃ new,
      st_written st' = new ++ st_written st ∧
      listarg_names (flat_map subnodes nodes')
        ≡ₚ listarg_names (flat_map subnodes nodes) ++ tuple_names new ∧
      bindvars_of (flat_map subnodes nodes)
        ⊆ bindvars_of (flat_map subnodes nodes') ∧
      list_to_set new.*1 ⊆ bindvars_of (flat_map subnodes nodes').
Proof.
  induction fuel as [|fuel IH]; intros nodes st st' nodes' err Hrun.
  { destruct nodes; [|done]. rewrite Walk_nil in Hrun. simplify_eq.
    exists []. split_and!; [done|done|done|set_solver]. }
  induction nodes as [|n nodes IHn] in st, st', nodes', err, Hrun |- *.
  { rewrite Walk_nil in Hrun. simplify_eq.
    exists []. split_and!; [done|done|done|set_solver]. }
  apply Walk_Normalize_cons_inv in Hrun
    as (st1 & n1 & st2 & cs & rest' & Hv & Hsub & Hlen & Hrest & -> & ->).
  destruct (IH _ _ _ _ _ Hsub) as (newc & Hwc & Hpc & Hbc & Hrc).
  destruct (IHn _ _ _ _ Hrest) as (newr & Hwr & Hpr & Hbr & Hrr).
  destruct (with_children_names n1 cs) as [Hwl Hwb].
  destruct (names_flat_cons (with_children n1 cs) rest') as [-> ->].
  destruct (names_flat_cons n nodes) as [-> ->].
  rewrite children_with_children, Hwl, Hwb by done.
  apply Normalize_visit_Done in Hv
    as [[-> ->]
       |[(typ & val & name & -> & Hconv & -> & Hw)
        |(op & l & elems & name & b & -> & Htv & -> & Hb & Hw)]].
  - exists (newr ++ newc). split_and!.
    + by rewrite Hwr, Hwc, (assoc_L (++)).
    + rewrite Hpc, Hpr. unfold tuple_names. rewrite filter_app, fmap_app.
      solve_Permutation.
    + set_solver.
    + rewrite fmap_app, list_to_set_app_L. set_solver.
  - destruct (literal_no_placeholder _ Hconv) as (_ & Hl & Hb).
    rewrite Hl, Hb.
    assert (name ∈ bindvars_of [SQLVal ValArg (":" +:+ name)]) as Hin
      by (unfold bindvars_of; set_solver).
    destruct Hw as [Hw|(b & Hb' & Hw)].
    + exists (newr ++ newc). split_and!.
      * by rewrite Hwr, Hwc, Hw, (assoc_L (++)).
      * rewrite Hpc, Hpr. unfold tuple_names. rewrite filter_app, fmap_app.
        simpl. solve_Permutation.
      * set_solver.
      * rewrite fmap_app, list_to_set_app_L. set_solver.
    + exists (newr ++ newc ++ [(name, b)]). split_and!.
      * by rewrite Hwr, Hwc, Hw, <-!(assoc_L (++)).
      * rewrite Hpc, Hpr. unfold tuple_names. rewrite !filter_app, !fmap_app.
        rewrite filter_cons_False by done. simpl. solve_Permutation.
      * set_solver.
      * rewrite !fmap_app, !list_to_set_app_L. simpl. set_solver.
  - destruct (literals_no_placeholders elems) as [Hel Heb].
    { intros e He. destruct Htv as [values Htv]. by eapply tuple_values_elem. }
    assert (name ∈ bindvars_of [ListArg ("::" +:+ name)]) as Hin
      by (unfold bindvars_of; set_solver).
    destruct (names_flat_cons l [ListArg ("::" +:+ name)]) as [Hcl Hcb].
    destruct (names_flat_cons l [ValTuple elems]) as [Hdl Hdb].
    simpl children in *. rewrite Hcl in Hpc. rewrite Hdl.
    rewrite Hcb in Hbc. rewrite Hdb.
    destruct (names_flat_cons (ListArg ("::" +:+ name)) []) as [Hal Hab].
    destruct (names_flat_cons (ValTuple elems) []) as [Htl Htb].
    rewrite Hal in Hpc. rewrite Hab in Hbc. rewrite Htl, Htb.
    simpl children. rewrite Hel, Heb. simpl flat_map.
    exists (newr ++ newc ++ [(name, b)]). split_and!.
    + by rewrite Hwr, Hwc, Hw, <-!(assoc_L (++)).
    + rewrite Hpc, Hpr. unfold tuple_names. rewrite !filter_app, !fmap_app.
      rewrite filter_cons_True by done. simpl. solve_Permutation.
    + set_solver.
    + rewrite !fmap_app, !list_to_set_app_L. simpl. set_solver.
Qed.

Lemma bindvars_of_subnodes (n : SQLNode) :
  bindvars_of (subnodes n)
    = bindvars_of [n] ∪ bindvars_of (flat_map subnodes (children n)).
Proof. rewrite subnodes_unfold. apply bindvars_of_cons. Qed.

Lemma elem_of_bindvars_of_flat_map (name : string) (l : list SQLNode) :
  name ∈ bindvars_of (flat_map subnodes l) ↔
  ∃ c, c ∈ l ∧ name ∈ bindvars_of (subnodes c).
Proof.
  induction l as [|x l IH]; simpl.
  - split; [set_solver|]. intros (c & Hc & _). by apply not_elem_of_nil in Hc.
  - rewrite bindvars_of_app, elem_of_union, IH. split.
    + intros [Hx|(c & Hc & Hn)].
      * exists x. split; [by apply elem_of_cons; left|done].
      * exists c. split; [by apply elem_of_cons; right|done].
    + intros (c & [->|Hc]%elem_of_cons & Hn); [by left|right; by exists c].
Qed.

(** A placeholder of the statement after the walk was in the statement
    before, or it carries a name of [vals] or a key written to the bind
    variables. *)
Lemma rewritten_bindvars (V : gmap string string)
    (W : list (string * BindVariable)) (n n' : SQLNode) :
  rewritten V W n n' →
  ∀ name, name ∈ bindvars_of (subnodes n') →
    name ∈ bindvars_of (subnodes n) ∨ (∃ key, V !! key = Some name)
    ∨ name ∈ W.*1.
Proof.
  induction 1 as [typ val bval name0 Hconv Hkey
                 |op l l' elems values name0 Hlist Hin Hl IHl
                 |node cs Hconv Hlist Hcs IHcs] using rewritten_ind_nested;
    intros name Hname.
  - assert (name = name0) as -> by (unfold bindvars_of in Hname; set_solver).
    right; left. by eexists.
  - rewrite bindvars_of_subnodes in Hname. simpl in Hname.
    rewrite bindvars_of_app in Hname.
    apply elem_of_union in Hname as [Hname|Hname];
      [unfold bindvars_of in Hname; set_solver|].
    apply elem_of_union in Hname as [Hname|Hname].
    + destruct (IHl _ Hname) as [Hold|Hnew]; [|by right].
      left. rewrite bindvars_of_subnodes. simpl.
      rewrite bindvars_of_app. set_solver.
    + assert (name = name0) as -> by (unfold bindvars_of in Hname; set_solver).
      right; right. apply list_elem_of_fmap. by eexists (_, _).
  - rewrite bindvars_of_subnodes in Hname.
    rewrite children_with_children in Hname
      by (symmetry; by eapply Forall2_length).
    destruct (with_children_names node cs) as [_ Hb]. rewrite Hb in Hname.
    rewrite (bindvars_of_subnodes node).
    apply elem_of_union in Hname as [Hname|Hname]; [left; set_solver|].
    apply elem_of_bindvars_of_flat_map in Hname as (c' & Hc' & Hname).
    apply list_elem_of_lookup in Hc' as [i Hi].
    destruct (Forall2_lookup_r _ _ _ _ _ IHcs Hi) as (c & Hc & HP).
    destruct (HP _ Hname) as [Hold|Hnew]; [|by right].
    left. apply elem_of_union; right.
    apply elem_of_bindvars_of_flat_map. exists c.
    split; [by eapply list_elem_of_lookup_2|done].
Qed.

Lemma Normalize_walk_Walk (stmt : Statement)
    (bindVars : gmap string BindVariable) (prefix : string)
    (r : NormState * list SQLNode * option error) :
  existsb truncated (subnodes stmt) = false →
  Normalize_walk stmt bindVars prefix = Done r →
  Walk (S (depth stmt)) (Normalize_visit prefix)
    (mkNormState (bindvars_of (subnodes stmt)) 1 ∅ bindVars []) [stmt]
  = Done r.
Proof.
  intros Htr. unfold Normalize_walk. by rewrite GetBindvars_spec, Htr.
Qed.

(** X8. The placeholders of the normalized statement are exactly those of
    the original statement together with the names that [Normalize]
    assigned: [GetBindvars] of the result is [GetBindvars] of the original
    statement extended by the keys written to the bind variables. So every
    placeholder that [Normalize] puts into the statement is bound in the
    bind variables, and every entry it writes is referenced by the
    statement. *)
Theorem Normalize_placeholders (stmt : Statement)
    (bindVars : gmap string BindVariable) (prefix : string) :
  well_formed stmt = true → fits_int stmt →
  ∃ (reserved : gset string) (st : NormState) (stmt' : Statement),
    GetBindvars stmt = Done reserved ∧
    Normalize_walk stmt bindVars prefix = Done (st, [stmt'], None) ∧
    Normalize stmt bindVars prefix = Done (stmt', st_bindVars st) ∧
    GetBindvars stmt' = Done (reserved ∪ list_to_set (st_written st).*1) ∧
    st_reserved st = reserved ∪ list_to_set (st_written st).*1 ∧
    (∀ name, name ∈ (st_written st).*1 → is_Some (st_bindVars st !! name)).
Proof.
  intros Hwf Hfit.
  pose proof (well_formed_not_truncated stmt Hwf) as Htr.
  destruct (Normalize_walk_spec stmt bindVars prefix Htr Hfit)
    as (st & stmt' & Hwalk & Hrun & Hinv & Hrw).
  pose proof (rewritten_well_formed _ _ _ _ Hrw Hwf) as Hwf'.
  exists (bindvars_of (subnodes stmt)), st, stmt'.
  rewrite !GetBindvars_spec, Htr, (well_formed_not_truncated stmt' Hwf').
  split_and!; [done..| | |].
  - f_equal. apply set_eq. intros name. split.
    + intros Hname.
      destruct (rewritten_bindvars _ _ _ _ Hrw name Hname)
        as [Hold|[[key Hkey]|Hnew]]; [set_solver| |set_solver].
      destruct (inv_vals _ _ _ _ Hinv _ _ Hkey) as (typ & val & bval & _ & _ & Hw).
      apply elem_of_union; right. apply elem_of_list_to_set, list_elem_of_fmap.
      by exists (name, bval).
    + pose proof (Normalize_walk_Walk _ _ _ _ Htr Hwalk) as Hw.
      apply Walk_Normalize_placeholders in Hw as (new & Hnew & _ & Hkeep & Href).
      simpl in Hnew, Hkeep, Href. rewrite !app_nil_r in *. subst new.
      set_solver.
  - rewrite (inv_reserved _ _ _ _ Hinv). set_solver.
  - intros name [[k b] [-> Hin]]%list_elem_of_fmap. simpl.
    rewrite (written_lookup _ _ _ _ _ _ Hinv Hin). by eexists.
Qed.

Lemma Normalize_placeholders_witness :
  well_formed stmt_with_v1 = true ∧ fits_int stmt_with_v1 ∧
  ∃ (reserved : gset string) (st : NormState) (stmt' : Statement),
    GetBindvars stmt_with_v1 = Done reserved ∧
    Normalize_walk stmt_with_v1 ∅ "v" = Done (st, [stmt'], None) ∧
    Normalize stmt_with_v1 ∅ "v" = Done (stmt', st_bindVars st) ∧
    GetBindvars stmt' = Done (reserved ∪ list_to_set (st_written st).*1) ∧
    st_reserved st = reserved ∪ list_to_set (st_written st).*1 ∧
    (∀ name, name ∈ (st_written st).*1 → is_Some (st_bindVars st !! name)).
Proof.
  assert (fits_int stmt_with_v1) as Hfit by (by apply fits_int_small).
  split; [reflexivity|]. split; [exact Hfit|].
  exact (Normalize_placeholders stmt_with_v1 ∅ "v" eq_refl Hfit).
Defined.

Lemma listarg_names_bindvars (name : string) (l : list SQLNode) :
  name ∈ listarg_names l → name ∈ bindvars_of l.
Proof.
  unfold listarg_names, bindvars_of.
  rewrite elem_of_list_to_set, !list_elem_of_omap.
  intros (n & Hn & Hname). exists n. split; [done|].
  by destruct n.
Qed.

Lemma NoDup_tuple_names (w : list (string * BindVariable)) :
  NoDup w.*1 → NoDup (tuple_names w).
Proof.
  intros Hnd. unfold tuple_names.
  eapply sublist_NoDup; [done|].
  apply fmap_sublist, sublist_filter.
Qed.

(** X9. A list bind variable is never shared: the list placeholders of the
    normalized statement, counted with repetitions, are those of the
    original statement and one more for each list bind variable that
    [Normalize] wrote. The names of these bind variables are pairwise
    different, none of them is the name of a list placeholder of the
    original statement, and each is bound to a value of type TUPLE. *)
Theorem Normalize_list_names (stmt : Statement)
    (bindVars : gmap string BindVariable) (prefix : string) :
  well_formed stmt = true → fits_int stmt →
  ∃ (st : NormState) (stmt' : Statement),
    Normalize_walk stmt bindVars prefix = Done (st, [stmt'], None) ∧
    Normalize stmt bindVars prefix = Done (stmt', st_bindVars st) ∧
    listarg_names (subnodes stmt')
      ≡ₚ listarg_names (subnodes stmt) ++ tuple_names (st_written st) ∧
    NoDup (tuple_names (st_written st)) ∧
    ∀ name, name ∈ tuple_names (st_written st) →
      (name ∉ listarg_names (subnodes stmt)) ∧
      ∃ bvals, st_bindVars st !! name = Some bvals ∧
               Type_ bvals = Type_TUPLE.
Proof.
  intros Hwf Hfit.
  pose proof (well_formed_not_truncated stmt Hwf) as Htr.
  destruct (Normalize_walk_spec stmt bindVars prefix Htr Hfit)
    as (st & stmt' & Hwalk & Hrun & Hinv & Hrw).
  exists st, stmt'. split_and!; [done..| | |].
  - pose proof (Normalize_walk_Walk _ _ _ _ Htr Hwalk) as Hw.
    apply Walk_Normalize_placeholders in Hw as (new & Hnew & Hperm & _).
    simpl in Hnew, Hperm. rewrite !app_nil_r in *. by subst new.
  - apply NoDup_tuple_names, (inv_nodup _ _ _ _ Hinv).
  - intros name Hname. unfold tuple_names in Hname.
    apply list_elem_of_fmap in Hname as ([k b] & -> & Hin).
    apply list_elem_of_filter in Hin as [Ht Hin]. simpl in *. split.
    + intros Hold. apply listarg_names_bindvars in Hold.
      eapply (inv_fresh _ _ _ _ Hinv); [|done].
      apply list_elem_of_fmap. by exists (k, b).
    + exists b. split; [by eapply written_lookup|done].
Qed.

Lemma Normalize_list_names_witness :
  well_formed stmt_two_lists = true ∧ fits_int stmt_two_lists ∧
  ∃ (st : NormState) (stmt' : Statement),
    Normalize_walk stmt_two_lists ∅ "v" = Done (st, [stmt'], None) ∧
    Normalize stmt_two_lists ∅ "v" = Done (stmt', st_bindVars st) ∧
    listarg_names (subnodes stmt')
      ≡ₚ listarg_names (subnodes stmt_two_lists)
         ++ tuple_names (st_written st) ∧
    NoDup (tuple_names (st_written st)) ∧
    ∀ name, name ∈ tuple_names (st_written st) →
      (name ∉ listarg_names (subnodes stmt_two_lists)) ∧
      ∃ bvals, st_bindVars st !! name = Some bvals ∧
               Type_ bvals = Type_TUPLE.
Proof.
  assert (fits_int stmt_two_lists) as Hfit by (by apply fits_int_small).
  split; [reflexivity|]. split; [exact Hfit|].
  exact (Normalize_list_names stmt_two_lists ∅ "v" eq_refl Hfit).
Defined.

Example Normalize_two_lists_ex :
  Normalize stmt_two_lists ∅ "v" =
    Done (OtherNode "select"
            [OtherNode "where"
               [OtherNode "and"
                  [ComparisonExpr "in" (OtherNode "a" []) (ListArg "::v2");
                   ComparisonExpr "in" (OtherNode "b" []) (ListArg "::v3");
                   ComparisonExpr "in" (OtherNode "c" []) (ListArg "::v1")]]],
          {[ "v2" := mkBindVariable Type_TUPLE ""
                       [mkValue Int64 "1"; mkValue Int64 "2"];
             "v3" := mkBindVariable Type_TUPLE ""
                       [mkValue Int64 "1"; mkValue Int64 "2"] ]}).
Proof. by vm_compute. Qed.
